(** * A generic LRU cache (go_example_0e3ffb.go): shallow embedding and proofs

    The Go program keeps a hash map from keys to pointers into a doubly
    linked list of [cacheEntry] nodes.  The embedding keeps the pointers:
    entries live in a store of cells addressed by locations, [prev] and
    [next] are optional locations ([None] is Go's [nil]), and every
    function of the source is a computation in a small state-and-panic
    monad over that store.  Keys are compared with Go's [==], which for
    a [comparable] type need not be reflexive (a [float64] NaN), and
    [cacheMap] is a Go map over that comparison.  The mutex is not
    modelled: the development describes one call at a time, which is what
    the lock enforces. *)

From stdpp Require Import gmap strings list fin_maps.

Local Open Scope Z_scope.

(** ** Machine integers

    Go's [int] is taken to be 64 bits wide; [size++] and [size--] wrap. *)

Definition max_int : Z := 2 ^ 63 - 1.
Definition min_int : Z := - 2 ^ 63.
Definition wrap64 (z : Z) : Z := (z + 2 ^ 63) mod 2 ^ 64 - 2 ^ 63.

(** ** Locations, results and the monad *)

Abbreviation loc := positive.

Inductive result (A : Type) : Type :=
  | Ok (a : A)
  | Panic (msg : string).
Arguments Ok {A} a.
Arguments Panic {A} msg.

(** The zero value of a Go type ([var zeroValue V] in [Get]). *)
Class ZeroValue (V : Type) : Type := zeroValue : V.

(** ** Keys and Go maps

    The key type is any Go [comparable] type (line 16).  Its [==] is
    symmetric and transitive; it is not reflexive on every type (NaN is
    different from itself), and it can hold between values that are not
    identical (the two zeros of [float64]).  Comparing interface values
    whose dynamic type has no [==] panics in Go; such values are not keys
    of this model. *)
Class Comparable (K : Type) : Type := {
  key_eqb : K → K → bool;
  key_eqb_sym : ∀ a b, key_eqb a b = key_eqb b a;
  key_eqb_trans : ∀ a b c,
    key_eqb a b = true → key_eqb b c = true → key_eqb a c = true
}.

Notation "a == b" := (key_eqb a b = true) (at level 70, no associativity).
Notation "a != b" := (key_eqb a b = false) (at level 70, no associativity).

Section LRU.

Context {K : Type} `{Comparable K} {V : Type} `{ZeroValue V}.

(** A Go [map[K]*cacheEntry]: its bindings, no two of them with keys that
    are [==], listed oldest first (Go fixes no order, and nothing in the
    source depends on one).  A lookup [m[k]] finds the binding whose key
    is [==] to [k];
    an assignment [m[k] = p] replaces that binding or, when there is
    none, adds one; [delete(m, k)] drops it.  A key that is not [==] to
    itself is therefore never found and never deleted, and every
    assignment at it adds a binding. *)
Record gomap : Type := GoMap { bindings : list (K * loc) }.

Fixpoint gm_lookup (k : K) (m : list (K * loc)) : option loc :=
  match m with
  | [] => None
  | (k', p) :: m' => if key_eqb k' k then Some p else gm_lookup k m'
  end.

Fixpoint gm_insert (k : K) (p : loc) (m : list (K * loc)) : list (K * loc) :=
  match m with
  | [] => [(k, p)]
  | (k', q) :: m' =>
      if key_eqb k' k then (k, p) :: m' else (k', q) :: gm_insert k p m'
  end.

Definition gm_delete (k : K) (m : list (K * loc)) : list (K * loc) :=
  filter (λ kq, kq.1 != k) m.

#[global] Instance gomap_empty : Empty gomap := GoMap [].
#[global] Instance gomap_lookup : Lookup K loc gomap :=
  λ k m, gm_lookup k (bindings m).
#[global] Instance gomap_insert : Insert K loc gomap :=
  λ k p m, GoMap (gm_insert k p (bindings m)).
#[global] Instance gomap_delete : Delete K gomap :=
  λ k m, GoMap (gm_delete k (bindings m)).

(** [len(m)] *)
Definition len (m : gomap) : nat := length (bindings m).

(** [type cacheEntry struct { key; value; prev; next }] *)
Record cacheEntry : Type := CacheEntry {
  key : K;
  value : V;
  prev : option loc;
  next : option loc
}.

(** [type LRUCache struct { capacity; size; cacheMap; head; tail; mutex }] *)
Record LRUCache : Type := MkCache {
  capacity : Z;
  size : Z;
  cacheMap : gomap;
  head : option loc;
  tail : option loc
}.

(** The memory the program runs in: the cells holding the entries, and
    the one cache object [c] that the methods receive. *)
Record Store : Type := MkStore {
  cells : gmap loc cacheEntry;
  cache : LRUCache
}.

Definition with_value (x : V) (e : cacheEntry) : cacheEntry :=
  CacheEntry (key e) x (prev e) (next e).
Definition with_prev (x : option loc) (e : cacheEntry) : cacheEntry :=
  CacheEntry (key e) (value e) x (next e).
Definition with_next (x : option loc) (e : cacheEntry) : cacheEntry :=
  CacheEntry (key e) (value e) (prev e) x.

Definition with_size (x : Z) (c : LRUCache) : LRUCache :=
  MkCache (capacity c) x (cacheMap c) (head c) (tail c).
Definition with_cacheMap (x : gomap) (c : LRUCache) : LRUCache :=
  MkCache (capacity c) (size c) x (head c) (tail c).
Definition with_head (x : option loc) (c : LRUCache) : LRUCache :=
  MkCache (capacity c) (size c) (cacheMap c) x (tail c).
Definition with_tail (x : option loc) (c : LRUCache) : LRUCache :=
  MkCache (capacity c) (size c) (cacheMap c) (head c) x.

Definition M (A : Type) : Type := Store → result (A * Store).

Definition ret {A} (a : A) : M A := λ s, Ok (a, s).
Definition bind {A B} (m : M A) (k : A → M B) : M B :=
  λ s, match m s with
       | Ok (a, s') => k a s'
       | Panic msg => Panic msg
       end.

Notation "x <- m ;; k" := (bind m (λ x, k))
  (at level 100, m at next level, right associativity).
Notation "m ;; k" := (bind m (λ _, k))
  (at level 100, right associativity).

(** Reading and writing the cache object. *)
Definition readCache : M LRUCache := λ s, Ok (cache s, s).
Definition modifyCache (f : LRUCache → LRUCache) : M unit :=
  λ s, Ok (tt, MkStore (cells s) (f (cache s))).

(** Dereferencing a pointer.  A Go pointer that is not [nil] always
    points to a live object; a location outside the store has no
    counterpart in a Go run and is reported as a panic, so that every
    theorem below that gives an [Ok] result also shows that no such
    access happens. *)
Definition load (p : loc) : M cacheEntry :=
  λ s, match cells s !! p with
       | Some e => Ok (e, s)
       | None => Panic "invalid memory address or nil pointer dereference"
       end.
Definition modifyEntry (p : loc) (f : cacheEntry → cacheEntry) : M unit :=
  e <- load p ;;
  λ s, Ok (tt, MkStore (<[p := f e]> (cells s)) (cache s)).

(** [&cacheEntry{...}]: a cell at an address not in use. *)
Definition alloc (e : cacheEntry) : M loc :=
  λ s, let p := fresh (dom (cells s)) in
       Ok (p, MkStore (<[p := e]> (cells s)) (cache s)).

(** ** The source functions *)

(** [NewLRUCache], lines 40-48. *)
Definition NewLRUCache (capacity : Z) : result Store :=
  if capacity <=? 0 then Panic "Cache capacity must be greater than 0"
  else Ok (MkStore ∅ (MkCache capacity 0 ∅ None None)).

(** [remove], lines 108-123. *)
Definition remove (entry : loc) : M unit :=
  e <- load entry ;;
  match prev e with
  | Some q => modifyEntry q (with_next (next e))
  | None => modifyCache (with_head (next e))
  end ;;
  e <- load entry ;;
  match next e with
  | Some r => modifyEntry r (with_prev (prev e))
  | None => modifyCache (with_tail (prev e))
  end ;;
  modifyEntry entry (with_next None) ;;
  modifyEntry entry (with_prev None).

(** [addFront], lines 126-138. *)
Definition addFront (entry : loc) : M unit :=
  c <- readCache ;;
  modifyEntry entry (with_next (head c)) ;;
  modifyEntry entry (with_prev None) ;;
  c <- readCache ;;
  match head c with
  | Some h => modifyEntry h (with_prev (Some entry))
  | None => ret tt
  end ;;
  modifyCache (with_head (Some entry)) ;;
  c <- readCache ;;
  match tail c with
  | None => modifyCache (with_tail (Some entry))
  | Some _ => ret tt
  end.

(** [moveToFront], lines 98-104. *)
Definition moveToFront (entry : loc) : M unit :=
  c <- readCache ;;
  if decide (Some entry = head c) then ret tt
  else remove entry ;; addFront entry.

(** [removeTail], lines 142-150. *)
Definition removeTail : M unit :=
  c <- readCache ;;
  match tail c with
  | None => ret tt
  | Some t =>
      e <- load t ;;
      let oldTailKey := key e in
      remove t ;;
      modifyCache (λ c, with_cacheMap (delete oldTailKey (cacheMap c)) c) ;;
      modifyCache (λ c, with_size (wrap64 (size c - 1)) c)
  end.

(** [Get], lines 54-64. *)
Definition Get (key : K) : M (V * bool) :=
  c <- readCache ;;
  match cacheMap c !! key with
  | Some entry =>
      moveToFront entry ;;
      e <- load entry ;;
      ret (value e, true)
  | None => ret (zeroValue, false)
  end.

(** [Put], lines 70-92. *)
Definition Put (key : K) (value : V) : M unit :=
  c <- readCache ;;
  match cacheMap c !! key with
  | Some entry =>
      modifyEntry entry (with_value value) ;;
      moveToFront entry
  | None =>
      newEntry <- alloc (CacheEntry key value None None) ;;
      modifyCache (λ c, with_cacheMap (<[key := newEntry]> (cacheMap c)) c) ;;
      addFront newEntry ;;
      modifyCache (λ c, with_size (wrap64 (size c + 1)) c) ;;
      c <- readCache ;;
      if capacity c <? size c then removeTail else ret tt
  end.

(** The first half of [Put] for a new key (lines 82-85), up to the
    capacity check; [Put_absent_split] below shows that [Put] is this
    block followed by the check. *)
Definition Put_insert (key : K) (value : V) : M unit :=
  newEntry <- alloc (CacheEntry key value None None) ;;
  modifyCache (λ c, with_cacheMap (<[key := newEntry]> (cacheMap c)) c) ;;
  addFront newEntry ;;
  modifyCache (λ c, with_size (wrap64 (size c + 1)) c).

(** ** Observations on a store *)

(** The locations met by following [next] from [p], at most [fuel] of them. *)
Fixpoint follow (m : gmap loc cacheEntry) (fuel : nat) (p : option loc)
  : list loc :=
  match fuel, p with
  | S n, Some q => q :: follow m n (m !! q ≫= next)
  | _, _ => []
  end.

(** The recency list, head first: as locations, and as key-value pairs. *)
Definition chain (s : Store) : list loc :=
  follow (cells s) (base.size (cells s)) (head (cache s)).
Definition payload (e : cacheEntry) : K * V := (key e, value e).
Definition order (s : Store) : list (K * V) :=
  omap (λ p, payload <$> cells s !! p) (chain s).

(** ** Sequences of calls *)

Inductive op : Type :=
  | OpGet (k : K)
  | OpPut (k : K) (v : V).

Definition exec (o : op) : M unit :=
  match o with
  | OpGet k => Get k ;; ret tt
  | OpPut k v => Put k v
  end.

Fixpoint run (ops : list op) : M unit :=
  match ops with
  | [] => ret tt
  | o :: rest => exec o ;; run rest
  end.

(** ** The recency list as a heap shape *)

Definition hd_or (d : option loc) (l : list loc) : option loc :=
  match l with [] => d | p :: _ => Some p end.
Definition last_or (d : option loc) (l : list loc) : option loc :=
  match last l with Some p => Some p | None => d end.

Definition links (e : cacheEntry) : option loc * option loc := (prev e, next e).

(** [seg m pv l nx]: the cells of [l] are chained in this order by their
    [next] and [prev] fields; the first one points back to [pv] and the
    last one forward to [nx]. *)
Fixpoint seg (m : gmap loc cacheEntry) (pv : option loc) (l : list loc)
    (nx : option loc) : Prop :=
  match l with
  | [] => True
  | p :: l' =>
      (∃ e, m !! p = Some e ∧ prev e = pv ∧ next e = hd_or nx l') ∧
      seg m (Some p) l' nx
  end.

(** ** Representation invariant *)

(** The list of the store is [l]: linked shape, head and tail pointers. *)
Definition Linked (s : Store) (l : list loc) : Prop :=
  NoDup l ∧ seg (cells s) None l None ∧
  head (cache s) = hd_or None l ∧ tail (cache s) = last l.

(** A lookup in the map finds exactly the cell of [l] whose key is [==]
    to the key looked up. *)
Definition Indexed (s : Store) (l : list loc) : Prop :=
  ∀ k p, cacheMap (cache s) !! k = Some p ↔
         p ∈ l ∧ ∃ k', key <$> cells s !! p = Some k' ∧ k' == k.

Definition Shape (s : Store) (l : list loc) : Prop :=
  Linked s l ∧ Indexed s l.

Definition Counted (s : Store) (l : list loc) : Prop :=
  size (cache s) = Z.of_nat (length l) ∧
  1 ≤ capacity (cache s) ≤ max_int ∧
  size (cache s) ≤ capacity (cache s).

Definition Repr (s : Store) (l : list loc) : Prop :=
  Shape s l ∧ Counted s l.

(** What the list operations leave alone: the counters, the map and the
    key and value of every cell. *)
Definition same_data (s s' : Store) : Prop :=
  capacity (cache s') = capacity (cache s) ∧
  size (cache s') = size (cache s) ∧
  cacheMap (cache s') = cacheMap (cache s) ∧
  payload <$> cells s' = payload <$> cells s.

(** The key and value held at a location. *)
Definition ent (s : Store) (p : loc) : option (K * V) :=
  payload <$> cells s !! p.

(** ** Reachable stores *)

(** A sequence of calls during which [size++] cannot overflow: either
    the capacity leaves room below [max_int], or there are too few calls
    to count that far. *)
Definition feasible (cap : Z) (ops : list op) : Prop :=
  cap < max_int ∨ Z.of_nat (length ops) ≤ max_int.

(** A store reached from [NewLRUCache cap], [cap] being a Go [int], by
    such a sequence of [Get] and [Put] calls. *)
Definition reachable (cap : Z) (s : Store) : Prop :=
  ∃ s0 ops, NewLRUCache cap = Ok s0 ∧ cap ≤ max_int ∧
            feasible cap ops ∧ run ops s0 = Ok (tt, s).

(** ** Further observations and a list model of the cache *)

(** The locations met by following [prev] from [p]: the list walked from
    the tail towards the head. *)
Fixpoint follow_back (m : gmap loc cacheEntry) (fuel : nat) (p : option loc)
  : list loc :=
  match fuel, p with
  | S n, Some q => q :: follow_back m n (m !! q ≫= prev)
  | _, _ => []
  end.

Definition chain_back (s : Store) : list loc :=
  follow_back (cells s) (base.size (cells s)) (tail (cache s)).

(** The pair a recency order holds for a key: the first one whose key
    is [==] to it. *)
Fixpoint find_pair (k : K) (o : list (K * V)) : option (K * V) :=
  match o with
  | [] => None
  | kv :: o' => if key_eqb kv.1 k then Some kv else find_pair k o'
  end.

(** The cache as the comments of the source describe it (lines 50-53,
    66-69 and the states written beside the calls of [main]): a list of
    pairs, most recently used first, keys compared with [==].  [Get] of a
    key in the list moves its pair to the front; [Put] of a key in the
    list does the same with the new value (the pair keeps the key it
    has); [Put] of a key not in the list adds the pair in front and keeps
    the first [cap] pairs. *)
Definition lru_get (k : K) (o : list (K * V)) : list (K * V) :=
  match find_pair k o with
  | Some kv => kv :: filter (λ x, x.1 != k) o
  | None => o
  end.

Definition lru_put (cap : Z) (k : K) (v : V) (o : list (K * V))
  : list (K * V) :=
  match find_pair k o with
  | Some kv => (kv.1, v) :: filter (λ x, x.1 != k) o
  | None => take (Z.to_nat cap) ((k, v) :: o)
  end.

Definition lru_step (cap : Z) (o : list (K * V)) (c : op) : list (K * V) :=
  match c with
  | OpGet k => lru_get k o
  | OpPut k v => lru_put cap k v o
  end.

Definition lru_run (cap : Z) (ops : list op) (o : list (K * V))
  : list (K * V) :=
  fold_left (lru_step cap) ops o.

(** What [Get] answers on a recency order. *)
Definition lru_answer (k : K) (o : list (K * V)) : V * bool :=
  match find_pair k o with
  | Some kv => (kv.2, true)
  | None => (zeroValue, false)
  end.

(** The value of the last [Put] of a key in a sequence of calls. *)
Fixpoint last_put (k : K) (ops : list op) : option V :=
  match ops with
  | [] => None
  | c :: rest =>
      match last_put k rest with
      | Some v => Some v
      | None =>
          match c with
          | OpPut k' v => if key_eqb k' k then Some v else None
          | OpGet _ => None
          end
      end
  end.

(** The keys put by a sequence of calls, each counted once: a key is
    new when it is [==] to none of the keys put before it (so a key that
    is not [==] to itself is new at every [Put]). *)
Definition seen (k : K) (ks : list K) : bool :=
  existsb (λ k', key_eqb k' k) ks.

Definition note_put (ks : list K) (c : op) : list K :=
  match c with
  | OpPut k _ => if seen k ks then ks else k :: ks
  | OpGet _ => ks
  end.

Definition put_keys (ops : list op) : list K := fold_left note_put ops [].

(** * Proofs *)

(** ** Machine integers *)

Lemma wrap64_id z : min_int ≤ z ≤ max_int → wrap64 z = z.
Proof.
  unfold wrap64, min_int, max_int. intros Hz.
  rewrite Z.mod_small; lia.
Qed.

Lemma wrap64_overflow : wrap64 (max_int + 1) = min_int.
Proof. reflexivity. Qed.

(** ** Lists and segments *)

Lemma last_or_snoc d l q : last_or d (l ++ [q]) = Some q.
Proof. unfold last_or. by rewrite last_snoc. Qed.

Lemma last_or_cons d p l : last_or d (p :: l) = last_or (Some p) l.
Proof.
  unfold last_or. destruct l as [|q l]; [done|].
  rewrite last_cons. by destruct (last (q :: l)).
Qed.

Lemma last_skip (l1 : list loc) p r l2 :
  last (l1 ++ p :: r :: l2) = last (l1 ++ r :: l2).
Proof.
  rewrite !last_app, (last_cons p).
  destruct (last (r :: l2)) eqn:E; [done|]. by apply last_None in E.
Qed.

Lemma hd_or_app d l1 l2 : hd_or d (l1 ++ l2) = hd_or (hd_or d l2) l1.
Proof. by destruct l1. Qed.

Lemma seg_ext m m' pv l nx :
  (∀ p, p ∈ l → links <$> m' !! p = links <$> m !! p) →
  seg m pv l nx → seg m' pv l nx.
Proof.
  revert pv. induction l as [|p l IH]; intros pv Hag; [done|].
  simpl. intros [(e & He & Hpv & Hnx) Hs]. split.
  - specialize (Hag p ltac:(left)). rewrite He in Hag. simpl in Hag.
    destruct (m' !! p) as [e'|]; [|done]. simpl in Hag.
    exists e'. unfold links in Hag. split; [done|]. split; congruence.
  - apply IH; [|done]. intros q Hq. apply Hag. by right.
Qed.

Lemma seg_app m pv l1 l2 nx :
  seg m pv (l1 ++ l2) nx ↔
  seg m pv l1 (hd_or nx l2) ∧ seg m (last_or pv l1) l2 nx.
Proof.
  revert pv. induction l1 as [|p l1 IH]; intros pv; simpl.
  - unfold last_or. simpl. tauto.
  - rewrite IH, last_or_cons, hd_or_app. tauto.
Qed.

Lemma seg_lookup m pv l nx p : seg m pv l nx → p ∈ l → is_Some (m !! p).
Proof.
  revert pv. induction l as [|q l IH]; intros pv Hs Hp.
  - by apply elem_of_nil in Hp.
  - destruct Hs as [(e & He & _) Hs].
    apply elem_of_cons in Hp as [->|Hp]; eauto.
Qed.

Lemma follow_seg m pv l n :
  seg m pv l None → (length l ≤ n)%nat → follow m n (hd_or None l) = l.
Proof.
  revert pv n. induction l as [|p l IH]; intros pv n Hs Hn.
  - by destruct n.
  - destruct n as [|n]; simpl in Hn; [lia|].
    destruct Hs as [(e & He & _ & Hnx) Hs]. simpl.
    rewrite He. simpl. rewrite Hnx. f_equal. eapply IH; [done|lia].
Qed.

(** ** The invariant determines the observations *)

Lemma Linked_chain s l : Linked s l → chain s = l.
Proof.
  intros (Hnd & Hs & Hh & _). unfold chain. rewrite Hh.
  eapply follow_seg; [done|].
  assert (list_to_set l ⊆ dom (cells s)) as Hsub.
  { intros p Hp. apply elem_of_list_to_set in Hp.
    apply elem_of_dom. by eapply seg_lookup. }
  apply subseteq_size in Hsub.
  rewrite size_list_to_set in Hsub by done.
  by rewrite size_dom in Hsub.
Qed.

Lemma Linked_unique s l l' : Linked s l → Linked s l' → l = l'.
Proof. intros H1 H2. by rewrite <- (Linked_chain s l), <- (Linked_chain s l'). Qed.


(** ** Keys and the Go map *)

Lemma key_eqb_refl_l (a b : K) : a == b → a == a.
Proof.
  intros Hab. apply (key_eqb_trans a b a); [done|]. by rewrite key_eqb_sym.
Qed.

Lemma key_eqb_refl_r (a b : K) : a == b → b == b.
Proof. rewrite key_eqb_sym. apply key_eqb_refl_l. Qed.

Lemma key_eqb_neq_l (a b c : K) : a == b → a != c → b != c.
Proof.
  intros Hab Hac. destruct (key_eqb b c) eqn:Hbc; [|done].
  by rewrite (key_eqb_trans a b c) in Hac.
Qed.

Lemma key_eqb_neq_r (a b c : K) : a == b → c != a → c != b.
Proof.
  intros Hab Hca. destruct (key_eqb c b) eqn:Hcb; [|done].
  rewrite key_eqb_sym in Hab. by rewrite (key_eqb_trans c b a) in Hca.
Qed.

Lemma gm_lookup_insert k p m k' :
  gm_lookup k' (gm_insert k p m) =
  if key_eqb k k' then Some p else gm_lookup k' m.
Proof.
  induction m as [|[k0 q] m IH]; simpl; [done|].
  destruct (key_eqb k0 k) eqn:Hk0; simpl.
  - destruct (key_eqb k k') eqn:Hk; [done|].
    rewrite key_eqb_sym in Hk0. by rewrite (key_eqb_neq_l k k0 k').
  - rewrite IH. destruct (key_eqb k0 k') eqn:Hk0'; [|done].
    by rewrite (key_eqb_sym k k'), (key_eqb_neq_l k0 k' k).
Qed.

Lemma gm_lookup_delete k m k' :
  gm_lookup k' (gm_delete k m) =
  if key_eqb k k' then None else gm_lookup k' m.
Proof.
  unfold gm_delete. induction m as [|[k0 q] m IH]; simpl.
  - by destruct (key_eqb k k').
  - destruct (key_eqb k0 k) eqn:Hk0.
    + rewrite filter_cons_False by (simpl; by rewrite Hk0).
      rewrite IH. destruct (key_eqb k k') eqn:Hk; [done|].
      rewrite key_eqb_sym in Hk0. by rewrite (key_eqb_neq_l k k0 k').
    + rewrite filter_cons_True by done. simpl. rewrite IH.
      destruct (key_eqb k0 k') eqn:Hk0'; [|done].
      by rewrite (key_eqb_sym k k'), (key_eqb_neq_l k0 k' k).
Qed.

Lemma lookup_insert_go (m : gomap) k p k' :
  <[k := p]> m !! k' = if key_eqb k k' then Some p else m !! k'.
Proof. apply gm_lookup_insert. Qed.

Lemma lookup_delete_go (m : gomap) k k' :
  delete k m !! k' = if key_eqb k k' then None else m !! k'.
Proof. apply gm_lookup_delete. Qed.

Lemma lookup_empty_go (k : K) : (∅ : gomap) !! k = None.
Proof. done. Qed.

(** ** Running the monad *)

Lemma load_Ok m c p e :
  m !! p = Some e → load p (MkStore m c) = Ok (e, MkStore m c).
Proof. intros He. unfold load. simpl. by rewrite He. Qed.

Lemma modifyEntry_Ok m c p e f :
  m !! p = Some e →
  modifyEntry p f (MkStore m c) = Ok (tt, MkStore (<[p := f e]> m) c).
Proof. intros He. unfold modifyEntry, bind. by rewrite (load_Ok _ _ _ e). Qed.

Lemma bind_Ok {A B} (mx : M A) (k : A → M B) s a s' :
  mx s = Ok (a, s') → bind mx k s = k a s'.
Proof. intros Hm. unfold bind. by rewrite Hm. Qed.

Lemma payload_relink (m : gmap loc cacheEntry) p e e' :
  m !! p = Some e → payload e' = payload e →
  payload <$> <[p := e']> m = payload <$> m.
Proof.
  intros He Hf. rewrite fmap_insert, Hf. apply insert_id.
  by rewrite lookup_fmap, He.
Qed.

Lemma seg_insert_other (m : gmap loc cacheEntry) pv l nx p e :
  p ∉ l → seg m pv l nx → seg (<[p := e]> m) pv l nx.
Proof.
  intros Hp. apply seg_ext. intros q Hq.
  rewrite lookup_insert_ne; [done|]. intros ->. done.
Qed.

Lemma seg_set_prev_first (m : gmap loc cacheEntry) pv r l nx e x :
  r ∉ l → seg m pv (r :: l) nx → m !! r = Some e →
  seg (<[r := with_prev x e]> m) x (r :: l) nx.
Proof.
  intros Hr [(e' & He' & _ & Hnx) Hs] He.
  rewrite He in He'. injection He' as <-. split.
  - exists (with_prev x e). by rewrite lookup_insert_eq.
  - by apply seg_insert_other.
Qed.

Lemma seg_set_next_last (m : gmap loc cacheEntry) pv l q nx e x :
  q ∉ l → seg m pv (l ++ [q]) nx → m !! q = Some e →
  seg (<[q := with_next x e]> m) pv (l ++ [q]) x.
Proof.
  intros Hq Hs He. apply seg_app in Hs as [Hs1 [(e' & He' & Hpv & _) _]].
  rewrite He in He'. injection He' as <-. apply seg_app. split.
  - by apply seg_insert_other.
  - split; [|done]. exists (with_next x e). by rewrite lookup_insert_eq.
Qed.

Lemma remove_spec s l1 p l2 :
  Linked s (l1 ++ p :: l2) →
  ∃ s', remove p s = Ok (tt, s') ∧ Linked s' (l1 ++ l2) ∧ same_data s s'.
Proof.
  destruct s as [m c]. intros (Hnd & Hs & Hh & Ht). simpl in *.
  apply NoDup_app in Hnd as (Hnd1 & Hdisj & Hnd2).
  apply NoDup_cons in Hnd2 as [Hp2 Hnd2].
  assert (p ∉ l1) as Hp1. { intros Hin. apply (Hdisj p Hin). left. }
  apply seg_app in Hs as [Hs1 [(e & He & Hpv & Hnx) Hs2]]. simpl in Hs1.
  destruct e as [ke ve pe ne]. simpl in *. subst pe ne.
  assert (∃ m1 c1,
    match last_or None l1 with
    | Some q => modifyEntry q (with_next (hd_or None l2))
    | None => modifyCache (with_head (hd_or None l2))
    end (MkStore m c) = Ok (tt, MkStore m1 c1) ∧
    m1 !! p = m !! p ∧
    seg m1 None l1 (hd_or None l2) ∧ seg m1 (Some p) l2 None ∧
    head c1 = hd_or None (l1 ++ l2) ∧ tail c1 = tail c ∧
    same_data (MkStore m c) (MkStore m1 c1))
    as (m1 & c1 & Hrun1 & Hm1 & Hs1' & Hs2' & Hh1 & Ht1 & Hsd1).
  { destruct l1 as [|q l1' _] using rev_ind.
    - exists m, (with_head (hd_or None l2) c). by repeat split.
    - rewrite last_or_snoc.
      apply NoDup_app in Hnd1 as (_ & Hq & _).
      assert (q ∉ l1') as Hq1. { intros Hin. apply (Hq q Hin). left. }
      assert (q ∉ l2) as Hq2.
      { intros Hin. apply (Hdisj q); [apply elem_of_app; right; left|by right]. }
      assert (q ≠ p) as Hqp.
      { intros ->. apply Hp1. apply elem_of_app. right. left. }
      pose proof Hs1 as Hsq.
      apply seg_app in Hsq as [_ [(eq & Heq & _ & _) _]].
      exists (<[q := with_next (hd_or None l2) eq]> m), c.
      rewrite (modifyEntry_Ok _ _ _ _ _ Heq).
      split; [done|]. split; [by rewrite lookup_insert_ne|].
      split; [by eapply seg_set_next_last|].
      split; [by apply seg_insert_other|].
      split; [by rewrite Hh, <- !app_assoc, !hd_or_app|].
      split; [done|]. repeat split. simpl. by eapply payload_relink. }
  pose proof He as He1. rewrite <- Hm1 in He1. clear Hs1 Hs2 Hh.
  assert (∃ m2 c2,
    match hd_or None l2 with
    | Some r => modifyEntry r (with_prev (last_or None l1))
    | None => modifyCache (with_tail (last_or None l1))
    end (MkStore m1 c1) = Ok (tt, MkStore m2 c2) ∧
    is_Some (m2 !! p) ∧
    seg m2 None l1 (hd_or None l2) ∧ seg m2 (last_or None l1) l2 None ∧
    head c2 = hd_or None (l1 ++ l2) ∧ tail c2 = last (l1 ++ l2) ∧
    same_data (MkStore m1 c1) (MkStore m2 c2))
    as (m2 & c2 & Hrun2 & [e2 Hm2] & Hs1 & Hs2 & Hh2 & Ht2 & Hsd2).
  { destruct l2 as [|r l2'].
    - exists m1, (with_tail (last_or None l1) c1). simpl.
      split; [done|]. split; [by eexists|]. split; [done|]. split; [done|].
      split; [done|]. split; [|done]. rewrite app_nil_r. unfold last_or.
      by destruct (last l1).
    - simpl. apply NoDup_cons in Hnd2 as [Hr2 _].
      assert (r ∉ l1) as Hr1. { intros Hin. apply (Hdisj r Hin). right. left. }
      assert (r ≠ p) as Hrp. { intros ->. apply Hp2. left. }
      pose proof Hs2' as [(er & Her & _ & _) _].
      exists (<[r := with_prev (last_or None l1) er]> m1), c1.
      rewrite (modifyEntry_Ok _ _ _ _ _ Her).
      split; [done|]. split; [rewrite lookup_insert_ne by done; by eexists|].
      split; [by apply seg_insert_other|].
      split; [by eapply seg_set_prev_first|].
      split; [done|].
      split; [by rewrite Ht1, Ht, last_skip|].
      repeat split. simpl. by eapply payload_relink. }
  eexists. split.
  { unfold remove.
    rewrite (bind_Ok _ _ _ _ _ (load_Ok _ _ _ _ He)). simpl.
    rewrite (bind_Ok _ _ _ _ _ Hrun1).
    rewrite (bind_Ok _ _ _ _ _ (load_Ok _ _ _ _ He1)). simpl.
    rewrite (bind_Ok _ _ _ _ _ Hrun2).
    rewrite (bind_Ok _ _ _ _ _ (modifyEntry_Ok _ _ _ _ _ Hm2)).
    rewrite (modifyEntry_Ok _ _ p (with_next None e2))
      by apply lookup_insert_eq.
    reflexivity. }
  split.
  - split; [apply NoDup_app; split_and!; [done| |done]|].
    { intros x Hx Hx2. apply (Hdisj x Hx). by right. }
    simpl. split; [|done]. apply seg_app.
    split; by do 2 (apply seg_insert_other; [done|]).
  - destruct Hsd1 as (?&?&?&Hpl1), Hsd2 as (?&?&?&Hpl2).
    unfold same_data. simpl in *.
    rewrite insert_insert_eq, (payload_relink m2 p e2) by done.
    repeat split; congruence.
Qed.

Lemma addFront_spec s l p :
  Linked s l → p ∉ l → is_Some (cells s !! p) →
  ∃ s', addFront p s = Ok (tt, s') ∧ Linked s' (p :: l) ∧ same_data s s'.
Proof.
  destruct s as [m c]. intros (Hnd & Hs & Hh & Ht) Hp [e0 He0]. simpl in *.
  set (e1 := with_next (head c) e0).
  set (e2 := with_prev None e1).
  set (m2 := <[p := e2]> (<[p := e1]> m)).
  assert (m2 !! p = Some e2) as Hm2 by apply lookup_insert_eq.
  assert (seg m2 None l None) as Hs2
    by by do 2 (apply seg_insert_other; [done|]).
  assert (payload <$> m2 = payload <$> m) as Hpl.
  { unfold m2. rewrite insert_insert_eq. by eapply payload_relink. }
  assert (addFront p (MkStore m c) =
          (match head c with
           | Some h => modifyEntry h (with_prev (Some p))
           | None => ret tt
           end ;;
           modifyCache (with_head (Some p)) ;;
           c <- readCache ;;
           match tail c with
           | None => modifyCache (with_tail (Some p))
           | Some _ => ret tt
           end) (MkStore m2 c)) as ->.
  { unfold addFront, readCache. unfold bind at 1.
    rewrite (bind_Ok _ _ _ _ _ (modifyEntry_Ok _ _ _ _ _ He0)).
    rewrite (bind_Ok _ _ _ tt (MkStore m2 c)); [done|].
    apply modifyEntry_Ok, lookup_insert_eq. }
  destruct l as [|h l'].
  - simpl in Hh, Ht. rewrite Hh. eexists. split.
    { unfold bind, ret, modifyCache, readCache. simpl. rewrite Ht. done. }
    split; [|by repeat split].
    split; [apply NoDup_singleton|]. simpl.
    split; [|done]. split; [|done]. exists e2. split; [done|].
    unfold e2, e1. simpl. by rewrite Hh.
  - simpl in Hh. rewrite Hh.
    apply NoDup_cons in Hnd as Hh'. destruct Hh' as [Hhl _].
    assert (h ≠ p) as Hhp. { intros ->. apply Hp. left. }
    pose proof Hs2 as [(eh & Heh & _ & _) _].
    destruct (last (h :: l')) as [t|] eqn:Hlast;
      [|by apply last_None in Hlast].
    eexists. split.
    { rewrite (bind_Ok _ _ _ _ _ (modifyEntry_Ok _ _ _ _ _ Heh)).
      unfold bind, ret, modifyCache, readCache. simpl. rewrite Ht. done. }
    split.
    + split; [by apply NoDup_cons|]. simpl.
      split; [|split; [done|rewrite Ht; symmetry; exact Hlast]].
      split.
      * exists e2. rewrite lookup_insert_ne by done. split; [done|].
        unfold e2, e1. simpl. by rewrite Hh.
      * by eapply seg_set_prev_first.
    + unfold same_data. simpl. rewrite (payload_relink m2 h eh) by done.
      by repeat split.
Qed.

Lemma same_data_refl s : same_data s s.
Proof. by repeat split. Qed.

Lemma same_data_trans s1 s2 s3 :
  same_data s1 s2 → same_data s2 s3 → same_data s1 s3.
Proof. intros (?&?&?&?) (?&?&?&?). repeat split; congruence. Qed.

Lemma same_data_payload s s' p :
  same_data s s' → payload <$> cells s' !! p = payload <$> cells s !! p.
Proof. intros (_&_&_&Hpl). by rewrite <- !lookup_fmap, Hpl. Qed.

Lemma same_data_is_Some s s' p :
  same_data s s' → is_Some (cells s !! p) → is_Some (cells s' !! p).
Proof.
  intros Hsd [e He]. apply (same_data_payload _ _ p) in Hsd.
  rewrite He in Hsd. destruct (cells s' !! p); [by eexists|done].
Qed.

Lemma key_payload (o : option cacheEntry) : key <$> o = fst <$> (payload <$> o).
Proof. by destruct o. Qed.

Lemma Indexed_same s s' l l' :
  same_data s s' → (∀ p, p ∈ l' ↔ p ∈ l) → Indexed s l → Indexed s' l'.
Proof.
  intros Hsd Hl Hix k p. destruct (Hsd) as (_ & _ & -> & _).
  rewrite Hl, key_payload, (same_data_payload s s') by done.
  rewrite <- key_payload. apply Hix.
Qed.

Lemma moveToFront_spec s l1 p l2 :
  Linked s (l1 ++ p :: l2) →
  ∃ s', moveToFront p s = Ok (tt, s') ∧ Linked s' (p :: l1 ++ l2) ∧
        same_data s s' ∧ (l1 = [] → s' = s).
Proof.
  intros Hl. pose proof Hl as (Hnd & Hs & Hh & Ht).
  apply NoDup_app in Hnd as (Hnd1 & Hdisj & Hnd2).
  unfold moveToFront, readCache. unfold bind at 1.
  destruct (decide (Some p = head (cache s))) as [Hhd|Hhd].
  - assert (l1 = []) as ->.
    { destruct l1 as [|q l1']; [done|]. simpl in Hh.
      rewrite Hh in Hhd. injection Hhd as ->.
      exfalso. apply (Hdisj q); left. }
    exists s. split; [done|]. split; [done|]. split; [apply same_data_refl|done].
  - assert (l1 ≠ []) as Hne. { intros ->. simpl in Hh. by rewrite Hh in Hhd. }
    destruct (remove_spec s l1 p l2 Hl) as (s1 & Hrun1 & Hl1 & Hsd1).
    assert (p ∉ l1 ++ l2) as Hp.
    { apply NoDup_cons in Hnd2 as [Hp2 _]. intros [Hin|Hin]%elem_of_app.
      - apply (Hdisj p Hin). left.
      - done. }
    destruct (addFront_spec s1 (l1 ++ l2) p Hl1 Hp) as (s2 & Hrun2 & Hl2 & Hsd2).
    { eapply same_data_is_Some; [done|].
      eapply seg_lookup; [done|]. apply elem_of_app. right. left. }
    exists s2. rewrite (bind_Ok _ _ _ _ _ Hrun1).
    split; [done|]. split; [done|].
    split; [by eapply same_data_trans|done].
Qed.

Lemma elem_of_bump (l1 l2 : list loc) p q :
  q ∈ p :: l1 ++ l2 ↔ q ∈ l1 ++ p :: l2.
Proof. rewrite elem_of_cons, !elem_of_app, elem_of_cons. tauto. Qed.

Lemma Get_absent s k :
  cacheMap (cache s) !! k = None → Get k s = Ok ((zeroValue, false), s).
Proof. intros Hk. unfold Get, readCache, bind. by rewrite Hk. Qed.

Lemma Get_present s l1 p l2 k e :
  Shape s (l1 ++ p :: l2) →
  cacheMap (cache s) !! k = Some p → cells s !! p = Some e →
  ∃ s', Get k s = Ok ((value e, true), s') ∧ Shape s' (p :: l1 ++ l2) ∧
        same_data s s' ∧ (l1 = [] → s' = s).
Proof.
  intros [Hl Hix] Hk He.
  destruct (moveToFront_spec s l1 p l2 Hl) as (s' & Hrun & Hl' & Hsd & Hid).
  pose proof (same_data_payload s s' p Hsd) as Hpl. rewrite He in Hpl.
  destruct (cells s' !! p) as [e'|] eqn:He'; [|done].
  injection Hpl as Hke Hve.
  exists s'. split.
  { unfold Get, readCache. unfold bind at 1. rewrite Hk.
    rewrite (bind_Ok _ _ _ _ _ Hrun). unfold bind, load, ret.
    by rewrite He', Hve. }
  split; [|done]. split; [done|].
  eapply Indexed_same; [done|apply elem_of_bump|done].
Qed.

Lemma lookup_insert_proj {B} (f : cacheEntry → B)
    (m : gmap loc cacheEntry) p e e' q :
  m !! p = Some e → f e' = f e → f <$> <[p := e']> m !! q = f <$> m !! q.
Proof.
  intros He Hf. destruct (decide (p = q)) as [<-|Hne].
  - rewrite lookup_insert_eq, He. simpl. by rewrite Hf.
  - by rewrite lookup_insert_ne.
Qed.

Lemma Indexed_cell s l k p :
  Indexed s l → cacheMap (cache s) !! k = Some p →
  p ∈ l ∧ ∃ e, cells s !! p = Some e ∧ key e == k.
Proof.
  intros Hix Hk. apply Hix in Hk as (Hp & k' & He & Hkk). split; [done|].
  destruct (cells s !! p) as [e|]; [|done]. exists e. split; [done|].
  by injection He as ->.
Qed.

Lemma Indexed_lookup s l k p e :
  Indexed s l → p ∈ l → cells s !! p = Some e → key e == k →
  cacheMap (cache s) !! k = Some p.
Proof.
  intros Hix Hp He Hk. apply Hix. split; [done|]. exists (key e).
  by rewrite He.
Qed.

Lemma Put_present s l1 p l2 k v e :
  Shape s (l1 ++ p :: l2) → cacheMap (cache s) !! k = Some p →
  cells s !! p = Some e →
  ∃ s', Put k v s = Ok (tt, s') ∧ Shape s' (p :: l1 ++ l2) ∧
        capacity (cache s') = capacity (cache s) ∧
        size (cache s') = size (cache s) ∧
        cacheMap (cache s') = cacheMap (cache s) ∧
        payload <$> cells s' = <[p := (key e, v)]> (payload <$> cells s).
Proof.
  destruct s as [m c]. intros [Hl Hix] Hk He. simpl in *.
  set (s1 := MkStore (<[p := with_value v e]> m) c).
  assert (Linked s1 (l1 ++ p :: l2)) as Hl1.
  { destruct Hl as (Hnd & Hs & Hh & Ht). split; [done|]. split; [|done].
    eapply seg_ext; [|done]. intros q _. by eapply lookup_insert_proj. }
  assert (Indexed s1 (l1 ++ p :: l2)) as Hix1.
  { intros k' q. simpl. rewrite (lookup_insert_proj key m p e) by done.
    apply Hix. }
  destruct (moveToFront_spec s1 l1 p l2 Hl1) as (s' & Hrun & Hl' & Hsd & _).
  exists s'. split.
  { unfold Put, readCache. unfold bind at 1. simpl. rewrite Hk.
    by rewrite (bind_Ok _ _ _ _ _ (modifyEntry_Ok _ _ _ _ _ He)). }
  split.
  { split; [done|].
    eapply Indexed_same; [done|apply elem_of_bump|done]. }
  destruct Hsd as (Hc & Hz & Hm & Hpl). simpl in *.
  split; [done|]. split; [done|]. split; [done|].
  by rewrite Hpl, fmap_insert.
Qed.

Lemma removeTail_spec s l t e :
  Shape s (l ++ [t]) → cells s !! t = Some e →
  ∃ s', removeTail s = Ok (tt, s') ∧ Shape s' l ∧
        capacity (cache s') = capacity (cache s) ∧
        size (cache s') = wrap64 (size (cache s) - 1) ∧
        cacheMap (cache s') = delete (key e) (cacheMap (cache s)) ∧
        payload <$> cells s' = payload <$> cells s.
Proof.
  intros [Hl Hix] He. pose proof Hl as (Hnd & Hs & Hh & Ht).
  rewrite last_snoc in Ht.
  destruct (remove_spec s l t [] Hl) as (s1 & Hrun & Hl1 & Hsd).
  rewrite app_nil_r in Hl1.
  destruct Hl1 as (Hnd1 & Hs1 & Hh1 & Ht1).
  pose proof Hsd as (Hc & Hz & Hm & Hpl).
  eexists. split.
  { unfold removeTail, readCache. unfold bind at 1. rewrite Ht.
    destruct s as [m c]. rewrite (bind_Ok _ _ _ _ _ (load_Ok _ _ _ _ He)).
    simpl. rewrite (bind_Ok _ _ _ _ _ Hrun). reflexivity. }
  simpl. split; [split; [done|]|by rewrite Hc, Hz, Hm].
  intros k q. simpl. rewrite Hm, lookup_delete_go.
  rewrite key_payload, (same_data_payload s s1) by done.
  rewrite <- key_payload.
  apply NoDup_app in Hnd as (_ & Hdisj & _).
  destruct (key_eqb (key e) k) eqn:Hek.
  - split; [done|]. intros (Hq & k' & Hkq & Hkk).
    destruct (cells s !! q) as [eq|] eqn:Heq; [|done]. injection Hkq as <-.
    assert (cacheMap (cache s) !! k = Some q) as Hq'.
    { eapply Indexed_lookup; [done|apply elem_of_app; by left|done..]. }
    assert (cacheMap (cache s) !! k = Some t) as Ht'.
    { eapply Indexed_lookup; [done|apply elem_of_app; right; left|done..]. }
    rewrite Hq' in Ht'. injection Ht' as ->. exfalso.
    apply (Hdisj t Hq). left.
  - rewrite (Hix k q), elem_of_app. split; [|tauto].
    intros [[Hq|Hq] (k' & Hkq & Hkk)]; [by eauto|].
    apply list_elem_of_singleton in Hq as ->.
    rewrite He in Hkq. injection Hkq as <-. congruence.
Qed.

Lemma Put_absent_split s k v :
  cacheMap (cache s) !! k = None →
  Put k v s =
  (Put_insert k v ;;
   c <- readCache ;;
   if capacity c <? size c then removeTail else ret tt) s.
Proof.
  intros Hk. unfold Put, Put_insert, readCache. unfold bind at 1. rewrite Hk.
  unfold bind, alloc, modifyCache. simpl.
  by destruct (addFront _ _) as [[[] s2]|].
Qed.

Lemma Put_insert_spec s l k v :
  Shape s l → cacheMap (cache s) !! k = None →
  let p := fresh (dom (cells s)) in
  ∃ s', Put_insert k v s = Ok (tt, s') ∧ Shape s' (p :: l) ∧
        cells s !! p = None ∧
        capacity (cache s') = capacity (cache s) ∧
        size (cache s') = wrap64 (size (cache s) + 1) ∧
        cacheMap (cache s') = <[k := p]> (cacheMap (cache s)) ∧
        payload <$> cells s' = <[p := (k, v)]> (payload <$> cells s).
Proof.
  destruct s as [m c]. intros [Hl Hix] Hk p. simpl in *.
  assert (m !! p = None) as Hp.
  { apply not_elem_of_dom. apply is_fresh. }
  assert (p ∉ l) as Hpl.
  { intros Hin. destruct Hl as (_ & Hs & _).
    destruct (seg_lookup _ _ _ _ _ Hs Hin) as [e He]. simpl in He. congruence. }
  set (e0 := CacheEntry k v None None).
  set (s1 := MkStore (<[p := e0]> m) (with_cacheMap (<[k := p]> (cacheMap c)) c)).
  assert (Linked s1 l) as Hl1.
  { destruct Hl as (Hnd & Hs & Hh & Ht). split; [done|]. split; [|done].
    by apply seg_insert_other. }
  destruct (addFront_spec s1 l p Hl1 Hpl) as (s2 & Hrun & Hl2 & Hsd).
  { exists e0. apply lookup_insert_eq. }
  destruct Hsd as (Hc & Hz & Hm & Hpay). simpl in *.
  eexists. split.
  { unfold Put_insert, alloc, modifyCache. unfold bind at 1. unfold bind at 1.
    simpl. fold p e0 s1. rewrite (bind_Ok _ _ _ _ _ Hrun). reflexivity. }
  simpl. split; [split|].
  - destruct Hl2 as (Hnd & Hs & Hh & Ht).
    split; [done|]. split; [done|]. by split.
  - intros k' q. simpl. rewrite Hm, key_payload, <- lookup_fmap, Hpay.
    rewrite lookup_fmap, <- key_payload, lookup_insert_go.
    destruct (decide (q = p)) as [->|Hqp].
    + rewrite lookup_insert_eq. simpl.
      destruct (key_eqb k k') eqn:Hkk.
      * split; [intros _; split; [left|by exists k]|done].
      * split.
        -- intros [Hin _]%Hix. done.
        -- intros (_ & k0 & [= <-] & ?). congruence.
    + rewrite (lookup_insert_ne _ p q) by done. rewrite elem_of_cons.
      destruct (key_eqb k k') eqn:Hkk.
      * split; [congruence|].
        intros [[?|Hin] (k0 & Hkq & Hk0)]; [done|].
        assert (cacheMap c !! k = Some q) as Hc'; [|congruence].
        apply Hix. split; [done|]. exists k0. split; [done|].
        apply (key_eqb_trans k0 k' k); [done|]. by rewrite key_eqb_sym.
      * rewrite (Hix k' q). simpl.
        split; [tauto|]. intros [[?|?] ?]; done.
  - split; [done|]. split; [done|]. split; [by rewrite Hz|].
    split; [done|]. by rewrite Hpay, fmap_insert.
Qed.

Lemma Counted_nonempty s l :
  Counted s l → capacity (cache s) < wrap64 (size (cache s) + 1) →
  wrap64 (size (cache s) + 1) = size (cache s) + 1 ∧
  size (cache s) = capacity (cache s) ∧ l ≠ [].
Proof.
  intros (Hz & Hc & Hle) Hlt.
  destruct (decide (size (cache s) = max_int)) as [Hmax|Hmax].
  - rewrite Hmax, wrap64_overflow in Hlt. unfold min_int, max_int in *. lia.
  - rewrite wrap64_id in Hlt |- * by (unfold min_int, max_int in *; lia).
    split; [done|]. split; [lia|]. intros ->. simpl in Hz. lia.
Qed.

(** [Put] of a key that the lookup does not find, in full. *)
Lemma Put_absent s l k v :
  Repr s l → cacheMap (cache s) !! k = None →
  let p := fresh (dom (cells s)) in
  let n1 := wrap64 (size (cache s) + 1) in
  ∃ s1 s', Put_insert k v s = Ok (tt, s1) ∧ Put k v s = Ok (tt, s') ∧
    cells s !! p = None ∧
    capacity (cache s') = capacity (cache s) ∧
    payload <$> cells s' = <[p := (k, v)]> (payload <$> cells s) ∧
    ((n1 ≤ capacity (cache s) ∧ s' = s1 ∧ Shape s' (p :: l) ∧
      size (cache s') = n1 ∧
      cacheMap (cache s') = <[k := p]> (cacheMap (cache s)))
     ∨
     (capacity (cache s) < n1 ∧
      ∃ l0 t et, l = l0 ++ [t] ∧ cells s !! t = Some et ∧
        removeTail s1 = Ok (tt, s') ∧
        Shape s' (p :: l0) ∧ size (cache s') = size (cache s) ∧
        cacheMap (cache s') =
          delete (key et) (<[k := p]> (cacheMap (cache s))))).
Proof.
  intros [Hsh Hcnt] Hk p n1.
  destruct (Put_insert_spec s l k v Hsh Hk)
    as (s1 & Hrun1 & Hsh1 & Hp & Hc1 & Hz1 & Hm1 & Hpl1).
  fold p in Hsh1, Hp, Hm1, Hpl1. fold n1 in Hz1.
  rewrite (Put_absent_split _ _ _ Hk), (bind_Ok _ _ _ _ _ Hrun1).
  unfold readCache. unfold bind at 1. rewrite Hc1, Hz1.
  destruct (Z.ltb_spec (capacity (cache s)) n1) as [Hlt|Hge].
  - destruct (Counted_nonempty s l Hcnt Hlt) as (Hn1 & Hfull & Hne).
    destruct l as [|t l0 _] using rev_ind; [done|]. clear Hne.
    destruct Hsh as [Hl Hix].
    assert (is_Some (cells s !! t)) as [et Het].
    { destruct Hl as (_ & Hs & _). eapply seg_lookup; [done|].
      apply elem_of_app. right. left. }
    assert (t ≠ p) as Htp by congruence.
    assert (payload <$> cells s1 !! t = Some (payload et)) as Het1.
    { by rewrite <- lookup_fmap, Hpl1, lookup_insert_ne, lookup_fmap, Het. }
    destruct (cells s1 !! t) as [et1|] eqn:Het1'; [|done].
    injection Het1 as Hkey _.
    change (p :: l0 ++ [t]) with ((p :: l0) ++ [t]) in Hsh1.
    destruct (removeTail_spec s1 (p :: l0) t et1 Hsh1 Het1')
      as (s2 & Hrun2 & Hsh2 & Hc2 & Hz2 & Hm2 & Hpl2).
    exists s1, s2. split; [done|]. split; [done|]. split; [done|].
    split; [congruence|]. split; [congruence|]. right.
    split; [done|]. exists l0, t, et. split; [done|]. split; [done|].
    split; [done|]. split; [done|]. split.
    + rewrite Hz2, Hz1. fold n1 in Hn1. rewrite Hn1.
      replace (size (cache s) + 1 - 1) with (size (cache s)) by lia.
      destruct Hcnt as (Hz & Hc & Hle). apply wrap64_id.
      unfold min_int, max_int in *. lia.
    + by rewrite Hm2, Hm1, Hkey.
  - exists s1, s1. split; [done|]. split; [done|]. split; [done|].
    split; [done|]. split; [done|]. left.
    split; [done|]. split; [done|]. split; [done|]. by split.
Qed.

(** Whatever the key, [Put] succeeds and leaves its entry at the head,
    under the key it had or, for a new entry, under the key put. *)
Lemma Put_spec s l k v :
  Repr s l →
  ∃ s' p l' k', Put k v s = Ok (tt, s') ∧ Shape s' (p :: l') ∧
                payload <$> cells s' !! p = Some (k', v) ∧
                (k' = k ∨ k' == k).
Proof.
  intros Hr. destruct (cacheMap (cache s) !! k) as [p|] eqn:Hk.
  - destruct Hr as [Hsh _].
    destruct (Indexed_cell _ _ _ _ (proj2 Hsh) Hk) as (Hin & e & He & Hke).
    apply list_elem_of_split in Hin as (l1 & l2 & ->).
    destruct (Put_present s l1 p l2 k v e Hsh Hk He)
      as (s' & Hrun & Hsh' & _ & _ & _ & Hpl).
    exists s', p, (l1 ++ l2), (key e). split; [done|]. split; [done|].
    split; [|by right].
    by rewrite <- lookup_fmap, Hpl, lookup_insert_eq.
  - destruct (Put_absent s l k v Hr Hk)
      as (s1 & s' & _ & Hrun & _ & _ & Hpl & Hcase).
    assert (payload <$> cells s' !! fresh (dom (cells s)) = Some (k, v)) as Hp
      by by rewrite <- lookup_fmap, Hpl, lookup_insert_eq.
    destruct Hcase as [(_ & _ & Hsh' & _)|
                       (_ & l0 & t & et & _ & _ & _ & Hsh' & _)];
      eauto 12.
Qed.

Lemma length_bump (l1 l2 : list loc) p :
  length (p :: l1 ++ l2) = length (l1 ++ p :: l2).
Proof. rewrite !length_app. simpl. rewrite !length_app. simpl. lia. Qed.

Lemma exec_Repr s l o :
  Repr s l → size (cache s) < max_int →
  ∃ s' l', exec o s = Ok (tt, s') ∧ Repr s' l' ∧
           capacity (cache s') = capacity (cache s) ∧
           size (cache s') ≤ size (cache s) + 1.
Proof.
  intros Hr Hroom. pose proof Hr as [Hsh (Hz & Hc & Hle)].
  destruct o as [k|k v]; simpl;
    destruct (cacheMap (cache s) !! k) as [p|] eqn:Hk.
  - destruct (Indexed_cell _ _ _ _ (proj2 Hsh) Hk) as (Hin & e & He & _).
    apply list_elem_of_split in Hin as (l1 & l2 & ->).
    destruct (Get_present s l1 p l2 k e Hsh Hk He)
      as (s' & Hrun & Hsh' & (Hc' & Hz' & _) & _).
    exists s', (p :: l1 ++ l2). rewrite (bind_Ok _ _ _ _ _ Hrun).
    split; [done|]. split; [|lia].
    split; [done|]. unfold Counted. rewrite length_bump. lia.
  - exists s, l. rewrite (bind_Ok _ _ _ _ _ (Get_absent s k Hk)).
    split; [done|]. split; [done|]. lia.
  - destruct (Indexed_cell _ _ _ _ (proj2 Hsh) Hk) as (Hin & e & He & _).
    apply list_elem_of_split in Hin as (l1 & l2 & ->).
    destruct (Put_present s l1 p l2 k v e Hsh Hk He)
      as (s' & Hrun & Hsh' & Hc' & Hz' & _).
    exists s', (p :: l1 ++ l2).
    split; [done|]. split; [|lia].
    split; [done|]. unfold Counted. rewrite length_bump. lia.
  - destruct (Put_absent s l k v Hr Hk)
      as (s1 & s' & _ & Hrun & _ & Hc' & _ & Hcase).
    rewrite (wrap64_id (size (cache s) + 1)) in Hcase
      by (unfold min_int, max_int in *; lia).
    destruct Hcase as [(Hfit & _ & Hsh' & Hz' & _)|
                       (_ & l0 & t & et & -> & _ & _ & Hsh' & Hz' & _)].
    + eexists s', _. split; [done|]. split; [|lia].
      split; [done|]. unfold Counted. simpl length. lia.
    + eexists s', _. split; [done|]. split; [|lia].
      split; [done|]. unfold Counted. rewrite length_app in Hz.
      simpl length in *. lia.
Qed.

Lemma run_Repr ops : ∀ s l,
  Repr s l →
  capacity (cache s) < max_int ∨
    size (cache s) + Z.of_nat (length ops) ≤ max_int →
  ∃ s' l', run ops s = Ok (tt, s') ∧ Repr s' l' ∧
           capacity (cache s') = capacity (cache s) ∧
           size (cache s') ≤ size (cache s) + Z.of_nat (length ops).
Proof.
  induction ops as [|o ops IH]; intros s l Hr Hroom.
  - exists s, l. split; [done|]. split; [done|]. simpl. lia.
  - assert (size (cache s) < max_int) as Hlt.
    { destruct Hr as [_ (_ & _ & Hle)]. simpl length in Hroom. lia. }
    destruct (exec_Repr s l o Hr Hlt) as (s1 & l1 & Hrun1 & Hr1 & Hc1 & Hz1).
    destruct (IH s1 l1 Hr1) as (s2 & l2 & Hrun2 & Hr2 & Hc2 & Hz2).
    { rewrite Hc1. simpl length in Hroom. lia. }
    exists s2, l2. simpl. rewrite (bind_Ok _ _ _ _ _ Hrun1).
    split; [done|]. split; [done|]. split; [congruence|].
    simpl length. lia.
Qed.

Lemma New_Ok cap :
  0 < cap →
  NewLRUCache cap = Ok (MkStore ∅ (MkCache cap 0 ∅ None None)).
Proof.
  intros Hc. unfold NewLRUCache.
  by destruct (Z.leb_spec cap 0); [lia|].
Qed.

Lemma New_Repr cap s0 :
  cap ≤ max_int → NewLRUCache cap = Ok s0 →
  Repr s0 [] ∧ capacity (cache s0) = cap ∧ size (cache s0) = 0.
Proof.
  intros Hmax. unfold NewLRUCache.
  destruct (Z.leb_spec cap 0); [done|]. intros [= <-].
  split; [|done]. split; [split|].
  - split; [apply NoDup_nil_2|done].
  - intros k p. simpl. rewrite lookup_empty. split; [done|].
    by intros [?%elem_of_nil _].
  - unfold Counted. simpl. lia.
Qed.

Lemma reachable_Repr cap s :
  reachable cap s → ∃ l, Repr s l ∧ capacity (cache s) = cap.
Proof.
  intros (s0 & ops & Hnew & Hmax & Hfeas & Hrun).
  destruct (New_Repr cap s0 Hmax Hnew) as (Hr0 & Hc0 & Hz0).
  destruct (run_Repr ops s0 [] Hr0) as (s' & l & Hrun' & Hr & Hc & _).
  { rewrite Hc0, Hz0. destruct Hfeas; [by left|right; lia]. }
  rewrite Hrun in Hrun'. injection Hrun' as <-.
  exists l. split; [done|congruence].
Qed.

(** ** The recency order as keys and values *)

Lemma order_Linked s l : Linked s l → order s = omap (ent s) l.
Proof. intros Hl. unfold order. by rewrite (Linked_chain s l). Qed.

Lemma Linked_length s l : Linked s l → (length l ≤ base.size (cells s))%nat.
Proof.
  intros (Hnd & Hs & _).
  assert (list_to_set l ⊆ dom (cells s)) as Hsub.
  { intros p Hp. apply elem_of_list_to_set in Hp.
    apply elem_of_dom. by eapply seg_lookup. }
  apply subseteq_size in Hsub.
  rewrite size_list_to_set in Hsub by done.
  by rewrite size_dom in Hsub.
Qed.

Lemma omap_agree {A B} (f g : A → option B) (l : list A) :
  (∀ x, x ∈ l → f x = g x) → omap f l = omap g l.
Proof.
  induction l as [|x l IH]; intros Hfg; [done|]. csimpl.
  rewrite (Hfg x) by left. rewrite IH; [done|].
  intros y Hy. apply Hfg. by right.
Qed.

Lemma omap_total_length {A B} (f : A → option B) (l : list A) :
  (∀ x, x ∈ l → is_Some (f x)) → length (omap f l) = length l.
Proof.
  induction l as [|x l IH]; intros Hf; [done|]. csimpl.
  destruct (Hf x) as [y ->]; [left|]. csimpl. rewrite IH; [done|].
  intros z Hz. apply Hf. by right.
Qed.

Lemma ent_is_Some s l p : Linked s l → p ∈ l → is_Some (ent s p).
Proof.
  intros (_ & Hs & _) Hp. destruct (seg_lookup _ _ _ _ _ Hs Hp) as [e He].
  unfold ent. rewrite He. by eexists.
Qed.

Lemma order_length s l : Linked s l → length (order s) = length l.
Proof.
  intros Hl. rewrite (order_Linked s l Hl). apply omap_total_length.
  intros p. by apply ent_is_Some.
Qed.

Lemma ent_key s p k v : ent s p = Some (k, v) → key <$> cells s !! p = Some k.
Proof.
  unfold ent. destruct (cells s !! p) as [e|]; [|done]. simpl.
  by intros [= <- _].
Qed.

Lemma Indexed_inj s l k p q k' v :
  Indexed s l → cacheMap (cache s) !! k = Some p →
  q ∈ l → ent s q = Some (k', v) → k' == k → q = p.
Proof.
  intros Hix Hk Hq Hent Hkk. apply ent_key in Hent.
  assert (cacheMap (cache s) !! k = Some q) as Hk'.
  { apply Hix. split; [done|]. by exists k'. }
  congruence.
Qed.

Lemma filter_others s l k p (li : list loc) :
  Indexed s l → cacheMap (cache s) !! k = Some p →
  (∀ q, q ∈ li → q ∈ l ∧ q ≠ p) →
  filter (λ kv, kv.1 != k) (omap (ent s) li) = omap (ent s) li.
Proof.
  intros Hix Hk. induction li as [|q li IH]; intros Hli; [done|]. csimpl.
  destruct (ent s q) as [[k' v']|] eqn:Hq.
  - rewrite filter_cons_True.
    + rewrite IH; [done|]. intros r Hr. apply Hli. by right.
    + simpl. destruct (key_eqb k' k) eqn:Hkk; [|done].
      destruct (Hli q) as [Hin Hne]; [left|].
      destruct Hne. by eapply Indexed_inj.
  - apply IH. intros r Hr. apply Hli. by right.
Qed.

Lemma order_bump s s' l1 p l2 k kv :
  Shape s (l1 ++ p :: l2) → Linked s' (p :: l1 ++ l2) →
  cacheMap (cache s) !! k = Some p →
  (∀ q, q ≠ p → ent s' q = ent s q) → ent s' p = Some kv →
  order s' = kv :: filter (λ x, x.1 != k) (order s).
Proof.
  intros [Hl Hix] Hl' Hk Hoth Hp.
  rewrite (order_Linked s' _ Hl'), (order_Linked s _ Hl).
  destruct (Indexed_cell _ _ _ _ Hix Hk) as (_ & e & He & Hke).
  assert (ent s p = Some (key e, value e)) as Hp0.
  { unfold ent. by rewrite He. }
  destruct Hl as (Hnd & _).
  apply NoDup_app in Hnd as (_ & Hdisj & [Hp2 _]%NoDup_cons).
  csimpl. rewrite Hp. f_equal.
  rewrite !omap_app. csimpl. rewrite Hp0, filter_app, filter_cons_False
    by (simpl; by rewrite Hke).
  rewrite (filter_others s (l1 ++ p :: l2) k p l1),
          (filter_others s (l1 ++ p :: l2) k p l2); try done.
  - f_equal; apply omap_agree; intros q Hq; apply Hoth; intros ->.
    + apply (Hdisj p Hq). left.
    + done.
  - intros q Hq. split; [apply elem_of_app; right; by right|by intros ->].
  - intros q Hq. split; [apply elem_of_app; by left|].
    intros ->. apply (Hdisj p Hq). left.
Qed.

Lemma order_keys s l k :
  Shape s l →
  is_Some (cacheMap (cache s) !! k) ↔ ∃ kv, kv ∈ order s ∧ kv.1 == k.
Proof.
  intros [Hl Hix]. rewrite (order_Linked s l Hl). split.
  - intros [p Hk].
    destruct (Indexed_cell _ _ _ _ Hix Hk) as (Hin & e & He & Hke).
    exists (payload e). split; [|done].
    apply list_elem_of_omap. exists p. split; [done|].
    unfold ent. by rewrite He.
  - intros ([k' v] & (p & Hp & Hent)%list_elem_of_omap & Hkk).
    exists p. apply Hix. split; [done|]. exists k'. split; [|done].
    by eapply ent_key.
Qed.

Lemma order_last s l rest kt vt :
  Linked s l → order s = rest ++ [(kt, vt)] →
  ∃ l0 t et, l = l0 ++ [t] ∧ cells s !! t = Some et ∧
             payload et = (kt, vt) ∧ rest = omap (ent s) l0.
Proof.
  intros Hl Hord. rewrite (order_Linked s l Hl) in Hord.
  destruct l as [|t l0 _] using rev_ind.
  - by destruct rest.
  - destruct (ent_is_Some s (l0 ++ [t]) t Hl) as [kv Hkv];
      [apply elem_of_app; right; left|].
    rewrite omap_app in Hord. csimpl in Hord. rewrite Hkv in Hord.
    apply app_inj_tail in Hord as [<- ->].
    unfold ent in Hkv. destruct (cells s !! t) as [et|] eqn:Het; [|done].
    exists l0, t, et. split; [done|]. split; [done|]. split; [|done].
    simpl in Hkv. congruence.
Qed.

Lemma order_snoc_apart s l0 t et kv :
  Shape s (l0 ++ [t]) → cells s !! t = Some et →
  kv ∈ omap (ent s) l0 → kv.1 != key et.
Proof.
  intros [Hl Hix] Het (q & Hq & Hent)%list_elem_of_omap.
  destruct kv as [k' v']. simpl.
  destruct (key_eqb k' (key et)) eqn:Hkk; [exfalso|done].
  assert (t ∈ l0 ++ [t]) as Ht by (apply elem_of_app; right; left).
  assert (q = t) as ->.
  { eapply (Indexed_inj s _ (key et) t q k' v'); [done| |by apply elem_of_app; left|done..].
    eapply Indexed_lookup; [done..|]. by eapply key_eqb_refl_r. }
  destruct Hl as (Hnd & _). apply NoDup_app in Hnd as (_ & Hdisj & _).
  apply (Hdisj t Hq). left.
Qed.


Lemma Repr_bounds s l :
  Repr s l →
  size (cache s) ≤ capacity (cache s) ∧
  Z.of_nat (length (chain s)) = size (cache s) ∧
  Z.of_nat (length (order s)) = size (cache s).
Proof.
  intros [Hsh (Hz & _ & Hle)]. split; [done|].
  rewrite (Linked_chain s l), (order_length s l); try done; apply Hsh.
Qed.

Lemma ent_same s s' p : same_data s s' → ent s' p = ent s p.
Proof. apply same_data_payload. Qed.

Lemma ent_insert s s' p kv q :
  payload <$> cells s' = <[p := kv]> (payload <$> cells s) →
  ent s' q = if decide (p = q) then Some kv else ent s q.
Proof.
  intros Hpl. unfold ent. rewrite <- !lookup_fmap, Hpl.
  destruct (decide (p = q)) as [<-|Hne].
  - by rewrite lookup_insert_eq.
  - by rewrite lookup_insert_ne.
Qed.

Lemma ent_cell s p k v :
  ent s p = Some (k, v) → ∃ e, cells s !! p = Some e ∧ key e = k ∧ value e = v.
Proof.
  unfold ent. destruct (cells s !! p) as [e|]; [|done].
  intros [= <- <-]. by exists e.
Qed.

Lemma same_dom s s' :
  payload <$> cells s' = payload <$> cells s → dom (cells s') = dom (cells s).
Proof.
  intros Hpl. by rewrite <- (dom_fmap_L payload (cells s')), Hpl, dom_fmap_L.
Qed.

Lemma order_cons_fresh s s' l p kv :
  Linked s l → Linked s' (p :: l) → cells s !! p = None →
  payload <$> cells s' = <[p := kv]> (payload <$> cells s) →
  order s' = kv :: order s.
Proof.
  intros Hl Hl' Hp Hpl.
  rewrite (order_Linked s' _ Hl'), (order_Linked s _ Hl). csimpl.
  rewrite (ent_insert s s' p kv p Hpl). destruct (decide (p = p)); [|done].
  f_equal. apply omap_agree. intros q Hq.
  rewrite (ent_insert s s' p kv q Hpl).
  destruct (decide (p = q)) as [<-|]; [|done].
  destruct (ent_is_Some s l p Hl Hq) as [x Hx]. unfold ent in Hx.
  by rewrite Hp in Hx.
Qed.

Lemma order_snoc s l t e :
  Linked s (l ++ [t]) → cells s !! t = Some e →
  order s = omap (ent s) l ++ [payload e].
Proof.
  intros Hl He. rewrite (order_Linked s _ Hl), omap_app. csimpl.
  unfold ent at 2. by rewrite He.
Qed.

Lemma lookup_irreflexive s l k :
  Indexed s l → k != k → cacheMap (cache s) !! k = None.
Proof.
  intros Hix Hkk. destruct (cacheMap (cache s) !! k) as [p|] eqn:Hk; [|done].
  destruct (Indexed_cell _ _ _ _ Hix Hk) as (_ & e & _ & Hke).
  by rewrite (key_eqb_refl_r _ _ Hke) in Hkk.
Qed.

(** ** The claims of the specification *)


(** C4 ([Get]).  If the lookup in the map finds nothing, [Get] returns
    the zero value and [false] and the store is unchanged.  If it finds
    the entry [p], the key of [p] is [==] to the key asked for, [Get]
    returns the value stored in [p] and [true]; afterwards [p] is the
    head, the recency order is the old one with the pair of [p] moved to
    the front, and nothing is allocated or evicted: the cells in use,
    every key and value, the map, the capacity and the size are what
    they were. *)
Theorem Get_contract cap s k :
  reachable cap s →
  (cacheMap (cache s) !! k = None →
   Get k s = Ok ((zeroValue, false), s)) ∧
  (∀ p, cacheMap (cache s) !! k = Some p →
   ∃ e s', cells s !! p = Some e ∧ key e == k ∧
     Get k s = Ok ((value e, true), s') ∧
     (key e, value e) ∈ order s ∧
     head (cache s') = Some p ∧
     order s' = (key e, value e) :: filter (λ kv, kv.1 != k) (order s) ∧
     length (order s') = length (order s) ∧
     dom (cells s') = dom (cells s) ∧
     payload <$> cells s' = payload <$> cells s ∧
     cacheMap (cache s') = cacheMap (cache s) ∧
     size (cache s') = size (cache s) ∧
     capacity (cache s') = capacity (cache s)).
Proof.
  intros (l & [Hsh _] & _)%reachable_Repr. split; [apply Get_absent|].
  intros p Hk.
  destruct (Indexed_cell _ _ _ _ (proj2 Hsh) Hk) as (Hin & e & He & Hke).
  apply list_elem_of_split in Hin as (l1 & l2 & ->).
  destruct (Get_present s l1 p l2 k e Hsh Hk He)
    as (s' & Hrun & Hsh' & Hsd & _).
  assert (ent s p = Some (key e, value e)) as Hent.
  { unfold ent. by rewrite He. }
  exists e, s'. split; [done|]. split; [done|]. split; [done|].
  split.
  { rewrite (order_Linked s _ (proj1 Hsh)). apply list_elem_of_omap.
    exists p. split; [|done]. apply elem_of_app. right. left. }
  split; [apply Hsh'|].
  split.
  { eapply order_bump; [done|apply Hsh'|done| |].
    - intros q _. by apply ent_same.
    - by rewrite (ent_same s s'). }
  split.
  { rewrite (order_length s' _ (proj1 Hsh')), (order_length s _ (proj1 Hsh)).
    apply length_bump. }
  destruct Hsd as (Hc & Hz & Hm & Hpl).
  split; [by apply same_dom|]. by repeat split.
Qed.

(** C5 ([Put] of a present key).  If the lookup in the map finds the
    entry [p], [Put] writes the new value into [p] itself, leaving the
    key [p] holds (which is [==] to the key given), and makes [p] the
    head: the recency order is the old one with the pair of [p], now
    carrying the new value, moved to the front; every other cell keeps
    its key and value, no entry is added or evicted, and the map, the
    size and the capacity are unchanged. *)
Theorem Put_update cap s k v p :
  reachable cap s → cacheMap (cache s) !! k = Some p →
  ∃ e s', cells s !! p = Some e ∧ key e == k ∧
    Put k v s = Ok (tt, s') ∧
    payload <$> cells s' = <[p := (key e, v)]> (payload <$> cells s) ∧
    dom (cells s') = dom (cells s) ∧
    head (cache s') = Some p ∧
    order s' = (key e, v) :: filter (λ kv, kv.1 != k) (order s) ∧
    length (order s') = length (order s) ∧
    cacheMap (cache s') = cacheMap (cache s) ∧
    size (cache s') = size (cache s) ∧
    capacity (cache s') = capacity (cache s).
Proof.
  intros (l & [Hsh _] & _)%reachable_Repr Hk.
  destruct (Indexed_cell _ _ _ _ (proj2 Hsh) Hk) as (Hin & e & He & Hke).
  apply list_elem_of_split in Hin as (l1 & l2 & ->).
  destruct (Put_present s l1 p l2 k v e Hsh Hk He)
    as (s' & Hrun & Hsh' & Hc & Hz & Hm & Hpl).
  exists e, s'. split; [done|]. split; [done|]. split; [done|].
  split; [done|].
  split.
  { rewrite <- (dom_fmap_L payload (cells s')), Hpl, dom_insert_L, dom_fmap_L.
    apply subseteq_union_1_L, singleton_subseteq_l, elem_of_dom.
    by eexists. }
  split; [apply Hsh'|].
  split.
  { eapply order_bump; [done|apply Hsh'|done| |].
    - intros q Hq. rewrite (ent_insert s s' p (key e, v) q Hpl).
      by destruct (decide (p = q)).
    - rewrite (ent_insert s s' p (key e, v) p Hpl).
      by destruct (decide (p = p)). }
  split; [|done].
  rewrite (order_length s' _ (proj1 Hsh')), (order_length s _ (proj1 Hsh)).
  apply length_bump.
Qed.

(** C6 (construction).  [NewLRUCache] panics for every capacity [≤ 0];
    for every capacity [> 0] it returns a cache with that capacity, an
    empty map, [head] and [tail] both nil, size 0 and no entries. *)
Theorem construction cap :
  (cap ≤ 0 → ∃ msg, NewLRUCache cap = Panic msg) ∧
  (0 < cap →
   ∃ s, NewLRUCache cap = Ok s ∧
        capacity (cache s) = cap ∧ cacheMap (cache s) = ∅ ∧
        head (cache s) = None ∧ tail (cache s) = None ∧
        size (cache s) = 0 ∧ cells s = ∅ ∧ order s = []).
Proof.
  split; intros Hc.
  - unfold NewLRUCache. destruct (Z.leb_spec cap 0); [by eexists|lia].
  - eexists. rewrite New_Ok by done. by repeat split.
Qed.

(** C7 (idempotent head access).  [moveToFront] of the head entry does
    nothing.  [Get] on a key leaves the whole store, and so the recency
    order, as it was whenever the entry at the front of the order holds
    that key or one [==] to it: if the lookup finds the entry (the key
    asked for is [==] to the one stored) [Get] returns its value and
    [true]; if the key at the front is not [==] to itself the lookup
    finds nothing and [Get] returns the zero value and [false].  And for
    any key, a second [Get] straight after a first one returns the same
    result and changes nothing. *)
Theorem Get_head_idempotent cap s k :
  reachable cap s →
  (∀ p, head (cache s) = Some p → moveToFront p s = Ok (tt, s)) ∧
  (∀ k0 v rest, order s = (k0, v) :: rest → k0 == k →
     Get k s = Ok ((v, true), s)) ∧
  (∀ v rest, order s = (k, v) :: rest →
     Get k s = Ok (if key_eqb k k then (v, true) else (zeroValue, false), s)) ∧
  (∀ r s1, Get k s = Ok (r, s1) → Get k s1 = Ok (r, s1)).
Proof.
  intros (l & [Hsh _] & _)%reachable_Repr.
  assert (∀ k0 v rest, order s = (k0, v) :: rest → k0 == k →
            Get k s = Ok ((v, true), s)) as Hhead.
  { intros k0 v rest Hord Hk0. rewrite (order_Linked s l (proj1 Hsh)) in Hord.
    destruct l as [|p l']; [done|].
    destruct (ent_is_Some s (p :: l') p (proj1 Hsh)) as [kv Hent]; [left|].
    csimpl in Hord. rewrite Hent in Hord. injection Hord as -> _.
    destruct (ent_cell s p k0 v Hent) as (e & He & Hke & Hve).
    assert (cacheMap (cache s) !! k = Some p) as Hk.
    { apply (Indexed_lookup s (p :: l') k p e (proj2 Hsh)); [left|done|].
      by rewrite Hke. }
    destruct (Get_present s [] p l' k e Hsh Hk He) as (s' & Hrun & _ & _ & Hid).
    by rewrite Hrun, Hve, Hid. }
  split; [|split; [done|split]].
  - intros p Hp. unfold moveToFront, readCache, bind.
    by destruct (decide (Some p = head (cache s))).
  - intros v rest Hord. destruct (key_eqb k k) eqn:Hkk; [by eapply Hhead|].
    apply Get_absent. by eapply lookup_irreflexive; [apply Hsh|].
  - intros r s1 Hrun.
    destruct (cacheMap (cache s) !! k) as [p|] eqn:Hk.
    + destruct (Indexed_cell _ _ _ _ (proj2 Hsh) Hk) as (Hin & e & He & Hke).
      apply list_elem_of_split in Hin as (l1 & l2 & ->).
      destruct (Get_present s l1 p l2 k e Hsh Hk He)
        as (s' & Hrun' & Hsh' & Hsd & _).
      rewrite Hrun in Hrun'. injection Hrun' as -> ->.
      assert (ent s' p = Some (key e, value e)) as Hent.
      { rewrite (ent_same s s') by done. unfold ent. by rewrite He. }
      destruct (ent_cell s' p _ _ Hent) as (e' & He' & _ & Hve).
      destruct Hsd as (_ & _ & Hm & _). rewrite <- Hm in Hk.
      destruct (Get_present s' [] p (l1 ++ l2) k e' Hsh' Hk He')
        as (s2 & Hrun2 & _ & _ & Hid).
      by rewrite Hrun2, Hve, Hid.
    + rewrite (Get_absent s k Hk) in Hrun. injection Hrun as <- <-.
      by apply Get_absent.
Qed.

(** ** The list model and the helper functions *)

Lemma find_pair_Some k kv (o : list (K * V)) :
  find_pair k o = Some kv → kv ∈ o ∧ kv.1 == k.
Proof.
  induction o as [|x o IH]; [done|]. simpl.
  destruct (key_eqb x.1 k) eqn:Hx.
  - intros [= <-]. split; [left|done].
  - intros [Hin Hk]%IH. split; [by right|done].
Qed.

Lemma find_pair_None k (o : list (K * V)) :
  find_pair k o = None ↔ ∀ kv, kv ∈ o → kv.1 != k.
Proof.
  induction o as [|x o IH]; simpl.
  - split; [|done]. intros _ kv Hin. by apply elem_of_nil in Hin.
  - destruct (key_eqb x.1 k) eqn:Hx.
    + split; [done|]. intros Hall.
      rewrite (Hall x) in Hx; [done|left].
    + rewrite IH. split.
      * intros Hall kv [->|Hin]%elem_of_cons; [done|by apply Hall].
      * intros Hall kv Hin. apply Hall. by right.
Qed.

Lemma find_pair_equiv k k' (o : list (K * V)) :
  k == k' → find_pair k o = find_pair k' o.
Proof.
  intros Hkk. induction o as [|x o IH]; [done|]. simpl. rewrite IH.
  destruct (key_eqb x.1 k) eqn:Hx.
  - by rewrite (key_eqb_trans x.1 k k').
  - by rewrite (key_eqb_neq_r k k' x.1).
Qed.

Lemma find_pair_filter_ne k k' (o : list (K * V)) :
  k != k' → find_pair k' (filter (λ kv, kv.1 != k) o) = find_pair k' o.
Proof.
  intros Hne. induction o as [|x o IH]; [done|].
  destruct (key_eqb x.1 k) eqn:Hx.
  - rewrite filter_cons_False by (simpl; by rewrite Hx).
    simpl. rewrite IH. rewrite key_eqb_sym in Hx.
    by rewrite (key_eqb_neq_l k x.1 k').
  - rewrite filter_cons_True by done. simpl. by rewrite IH.
Qed.

Lemma find_pair_snoc_ne k' kt vt (rest : list (K * V)) :
  kt != k' → find_pair k' (rest ++ [(kt, vt)]) = find_pair k' rest.
Proof.
  intros Hne. induction rest as [|x rest IH]; simpl.
  - by rewrite Hne.
  - by rewrite IH.
Qed.

Lemma order_elem s l k p e :
  Shape s l → cacheMap (cache s) !! k = Some p → cells s !! p = Some e →
  payload e ∈ order s ∧ key e == k.
Proof.
  intros [Hl Hix] Hk He.
  destruct (Indexed_cell _ _ _ _ Hix Hk) as (Hin & e' & He' & Hke).
  rewrite He in He'. injection He' as <-. split; [|done].
  rewrite (order_Linked s l Hl). apply list_elem_of_omap.
  exists p. split; [done|]. unfold ent. by rewrite He.
Qed.

Lemma find_pair_order s l k p e :
  Shape s l → cacheMap (cache s) !! k = Some p → cells s !! p = Some e →
  find_pair k (order s) = Some (payload e).
Proof.
  intros Hsh Hk He. pose proof Hsh as [Hl Hix].
  destruct (order_elem s l k p e Hsh Hk He) as [Hin Hke].
  destruct (find_pair k (order s)) as [[k0 v0]|] eqn:Hf.
  - apply find_pair_Some in Hf as [Hin0 Hk0]. simpl in Hk0.
    rewrite (order_Linked s l Hl) in Hin0.
    apply list_elem_of_omap in Hin0 as (q & Hq & Hent).
    rewrite (Indexed_inj s l k p q k0 v0 Hix Hk Hq Hent Hk0) in Hent.
    unfold ent in Hent. rewrite He in Hent. simpl in Hent. congruence.
  - exfalso. rewrite find_pair_None in Hf.
    specialize (Hf (payload e) Hin). simpl in Hf. congruence.
Qed.

Lemma find_pair_order_None s l k :
  Shape s l → cacheMap (cache s) !! k = None → find_pair k (order s) = None.
Proof.
  intros Hsh Hk. destruct (find_pair k (order s)) as [kv|] eqn:Hf; [|done].
  apply find_pair_Some in Hf as [Hin Hkv].
  assert (is_Some (cacheMap (cache s) !! k)) as [? ?]; [|congruence].
  apply (order_keys s l k Hsh). by exists kv.
Qed.

(** [Get] against the list model, with the invariant carried along. *)
Lemma Get_refines s l k :
  Repr s l →
  ∃ s' l', Get k s = Ok (lru_answer k (order s), s') ∧
    order s' = lru_get k (order s) ∧ Repr s' l' ∧
    capacity (cache s') = capacity (cache s) ∧
    size (cache s') = size (cache s).
Proof.
  intros [Hsh Hcnt]. unfold lru_answer, lru_get.
  destruct (cacheMap (cache s) !! k) as [p|] eqn:Hk.
  - destruct (Indexed_cell _ _ _ _ (proj2 Hsh) Hk) as (Hin & e & He & Hke).
    rewrite (find_pair_order s l k p e Hsh Hk He).
    apply list_elem_of_split in Hin as (l1 & l2 & ->).
    destruct (Get_present s l1 p l2 k e Hsh Hk He)
      as (s' & Hrun & Hsh' & Hsd & _).
    exists s', (p :: l1 ++ l2). split; [done|]. split.
    { eapply order_bump; [done|apply Hsh'|done| |].
      - intros q _. by apply ent_same.
      - rewrite (ent_same s s') by done. unfold ent. by rewrite He. }
    destruct Hsd as (Hc & Hz & _). split; [|done].
    split; [done|]. destruct Hcnt as (Hz0 & Hcb & Hle).
    unfold Counted. rewrite length_bump. lia.
  - rewrite (find_pair_order_None s l k Hsh Hk).
    exists s, l. by rewrite (Get_absent s k Hk).
Qed.

Lemma take_snoc_full {A} (n : nat) (x y : A) (rest : list A) :
  length (rest ++ [y]) = n → take n (x :: rest ++ [y]) = x :: rest.
Proof.
  rewrite length_app. simpl. intros Hn.
  change (x :: rest ++ [y]) with ((x :: rest) ++ [y]).
  rewrite take_app_le by (simpl; lia). apply take_ge. simpl. lia.
Qed.

(** [Put] against the list model, with the invariant carried along. *)
Lemma Put_refines s l k v :
  Repr s l → size (cache s) < max_int →
  ∃ s' l', Put k v s = Ok (tt, s') ∧
    order s' = lru_put (capacity (cache s)) k v (order s) ∧ Repr s' l' ∧
    capacity (cache s') = capacity (cache s) ∧
    size (cache s) ≤ size (cache s') ≤ size (cache s) + 1.
Proof.
  intros Hr Hroom. pose proof Hr as [Hsh (Hz & Hcb & Hle)]. unfold lru_put.
  destruct (cacheMap (cache s) !! k) as [p|] eqn:Hk.
  - destruct (Indexed_cell _ _ _ _ (proj2 Hsh) Hk) as (Hin & e & He & Hke).
    rewrite (find_pair_order s l k p e Hsh Hk He).
    apply list_elem_of_split in Hin as (l1 & l2 & ->).
    destruct (Put_present s l1 p l2 k v e Hsh Hk He)
      as (s' & Hrun & Hsh' & Hc & Hz' & _ & Hpl).
    exists s', (p :: l1 ++ l2). split; [done|]. split.
    { eapply order_bump; [done|apply Hsh'|done| |].
      - intros q Hq. rewrite (ent_insert s s' p (key e, v) q Hpl).
        by destruct (decide (p = q)).
      - rewrite (ent_insert s s' p (key e, v) p Hpl).
        by destruct (decide (p = p)). }
    split; [|split; [done|lia]].
    split; [done|]. unfold Counted. rewrite length_bump. lia.
  - rewrite (find_pair_order_None s l k Hsh Hk).
    destruct (Put_absent s l k v Hr Hk)
      as (s1 & s' & _ & Hrun & Hp & Hc & Hpl & Hcase).
    rewrite (wrap64_id (size (cache s) + 1)) in Hcase
      by (unfold min_int, max_int in *; lia).
    pose proof (order_length s l (proj1 Hsh)) as Hlen.
    destruct Hcase as [(Hfit & _ & Hsh' & Hz' & _)|
                       (Hfull & l0 & t & et & -> & Het & _ & Hsh' & Hz' & _)].
    + eexists s', _. split; [done|]. split.
      { rewrite (order_cons_fresh s s' l _ (k, v) (proj1 Hsh) (proj1 Hsh') Hp Hpl).
        symmetry. apply take_ge. simpl. lia. }
      split; [|split; [done|lia]].
      split; [done|]. unfold Counted. simpl length. lia.
    + eexists s', _. split; [done|]. split.
      { rewrite (order_snoc s l0 t et (proj1 Hsh) Het) in Hlen |- *.
        rewrite take_snoc_full by lia.
        rewrite (order_Linked s' _ (proj1 Hsh')). csimpl.
        rewrite (ent_insert s s' _ (k, v) _ Hpl).
        destruct (decide (fresh (dom (cells s)) = fresh (dom (cells s))));
          [|done].
        f_equal. apply omap_agree. intros q Hq.
        rewrite (ent_insert s s' _ (k, v) q Hpl).
        destruct (decide (fresh (dom (cells s)) = q)) as [<-|]; [|done].
        destruct (ent_is_Some s _ (fresh (dom (cells s))) (proj1 Hsh))
          as [x Hx]; [apply elem_of_app; by left|].
        unfold ent in Hx. by rewrite Hp in Hx. }
      split; [|split; [done|lia]].
      split; [done|]. unfold Counted. rewrite length_app in Hz.
      simpl length in *. lia.
Qed.

Lemma exec_refines s l c :
  Repr s l → size (cache s) < max_int →
  ∃ s' l', exec c s = Ok (tt, s') ∧
    order s' = lru_step (capacity (cache s)) (order s) c ∧ Repr s' l' ∧
    capacity (cache s') = capacity (cache s) ∧
    size (cache s) ≤ size (cache s') ≤ size (cache s) + 1.
Proof.
  intros Hr Hroom. destruct c as [k|k v]; simpl.
  - destruct (Get_refines s l k Hr) as (s' & l' & Hrun & Hord & Hr' & Hc & Hz).
    exists s', l'. rewrite (bind_Ok _ _ _ _ _ Hrun).
    split; [done|]. split; [done|]. split; [done|]. split; [done|lia].
  - by apply (Put_refines s l).
Qed.

Lemma run_refines ops : ∀ s l,
  Repr s l →
  capacity (cache s) < max_int ∨
    size (cache s) + Z.of_nat (length ops) ≤ max_int →
  ∃ s' l', run ops s = Ok (tt, s') ∧
    order s' = lru_run (capacity (cache s)) ops (order s) ∧ Repr s' l' ∧
    capacity (cache s') = capacity (cache s).
Proof.
  induction ops as [|c ops IH]; intros s l Hr Hroom.
  - by exists s, l.
  - assert (size (cache s) < max_int) as Hlt.
    { destruct Hr as [_ (_ & _ & Hle)]. simpl length in Hroom. lia. }
    destruct (exec_refines s l c Hr Hlt)
      as (s1 & l1 & Hrun1 & Hord1 & Hr1 & Hc1 & Hz1).
    destruct (IH s1 l1 Hr1) as (s2 & l2 & Hrun2 & Hord2 & Hr2 & Hc2).
    { rewrite Hc1. simpl length in Hroom. lia. }
    exists s2, l2. simpl. rewrite (bind_Ok _ _ _ _ _ Hrun1).
    split; [done|]. split; [by rewrite Hord2, Hord1, Hc1|].
    split; [done|congruence].
Qed.

Lemma New_run_refines cap ops :
  1 ≤ cap ≤ max_int → feasible cap ops →
  ∃ s l, NewLRUCache cap = Ok (MkStore ∅ (MkCache cap 0 ∅ None None)) ∧
    run ops (MkStore ∅ (MkCache cap 0 ∅ None None)) = Ok (tt, s) ∧
    order s = lru_run cap ops [] ∧ Repr s l ∧ capacity (cache s) = cap.
Proof.
  intros [Hpos Hmax] Hfeas.
  destruct (New_Repr cap _ Hmax (New_Ok cap ltac:(lia))) as (Hr0 & Hc0 & Hz0).
  destruct (run_refines ops _ [] Hr0) as (s & l & Hrun & Hord & Hr & Hc).
  { rewrite Hc0, Hz0. destruct Hfeas; [by left|right; lia]. }
  exists s, l. split; [apply New_Ok; lia|].
  split; [done|]. split; [done|]. split; [done|]. by rewrite Hc.
Qed.

Lemma follow_back_seg (m : gmap loc cacheEntry) l : ∀ nx n,
  seg m None l nx → (length l ≤ n)%nat →
  follow_back m n (last l) = reverse l.
Proof.
  induction l as [|q l IH] using rev_ind; intros nx n Hs Hn.
  - by destruct n.
  - rewrite length_app in Hn. simpl in Hn.
    destruct n as [|n]; [lia|].
    apply seg_app in Hs as [Hs1 [(e & He & Hpv & _) _]].
    rewrite last_snoc, reverse_snoc. simpl. rewrite He. simpl.
    rewrite Hpv. f_equal.
    replace (last_or None l) with (last l)
      by (unfold last_or; by destruct (last l)).
    eapply IH; [done|lia].
Qed.

Lemma Linked_chain_back s l : Linked s l → chain_back s = reverse l.
Proof.
  intros Hl. pose proof (Linked_length s l Hl).
  destruct Hl as (_ & Hs & _ & Ht). unfold chain_back. rewrite Ht.
  by eapply follow_back_seg.
Qed.

Lemma filter_bump_loc (l1 l2 : list loc) p :
  NoDup (l1 ++ p :: l2) → filter (λ q, q ≠ p) (l1 ++ p :: l2) = l1 ++ l2.
Proof.
  intros (Hnd1 & Hdisj & [Hp2 _]%NoDup_cons)%NoDup_app.
  assert (∀ li : list loc, p ∉ li → filter (λ q, q ≠ p) li = li) as Hkeep.
  { induction li as [|q li IH]; intros Hp; [done|].
    apply not_elem_of_cons in Hp as [Hne Hp].
    rewrite filter_cons_True by done. by rewrite IH. }
  rewrite filter_app, filter_cons_False by (intros Hne; by apply Hne).
  rewrite !Hkeep; [done|done|].
  intros Hin. apply (Hdisj p Hin). left.
Qed.

Lemma remove_clears s s' p :
  remove p s = Ok (tt, s') →
  ∃ e, cells s' !! p = Some e ∧ prev e = None ∧ next e = None.
Proof.
  unfold remove. unfold bind at 1.
  destruct (load p s) as [[e0 s0]|]; [|done].
  unfold bind at 1.
  destruct (match prev e0 with
            | Some q => modifyEntry q (with_next (next e0))
            | None => modifyCache (with_head (next e0))
            end s0) as [[[] s1]|]; [|done].
  unfold bind at 1. destruct (load p s1) as [[e1 s2]|]; [|done].
  unfold bind at 1.
  destruct (match next e1 with
            | Some r => modifyEntry r (with_prev (prev e1))
            | None => modifyCache (with_tail (prev e1))
            end s2) as [[[] s3]|]; [|done].
  unfold bind at 1, modifyEntry at 1, bind at 1, load at 1.
  destruct (cells s3 !! p) as [e3|]; [|done].
  unfold modifyEntry, bind, load. simpl. rewrite lookup_insert_eq.
  intros [= <-]. simpl. rewrite lookup_insert_eq. by eexists.
Qed.

Lemma lru_step_elem cap (o : list (K * V)) c kv :
  kv ∈ lru_step cap o c →
  (∃ k', c = OpPut k' kv.2 ∧ (k' = kv.1 ∨ k' == kv.1)) ∨
  (kv ∈ o ∧ ∀ k' v', c = OpPut k' v' → k' != kv.1).
Proof.
  destruct c as [k'|k' v']; simpl; unfold lru_get, lru_put.
  - destruct (find_pair k' o) as [x|] eqn:Hf.
    + intros [->|[_ Hin]%list_elem_of_filter]%elem_of_cons; right.
      * split; [by apply find_pair_Some in Hf as [? _]|done].
      * by split.
    + intros Hin. right. by split.
  - destruct (find_pair k' o) as [x|] eqn:Hf.
    + intros [->|[Hne Hin]%list_elem_of_filter]%elem_of_cons.
      * left. exists k'. split; [done|]. right. simpl.
        apply find_pair_Some in Hf as [_ Hx]. by rewrite key_eqb_sym.
      * right. split; [done|]. intros k'' v'' [= -> _].
        by rewrite key_eqb_sym.
    + intros (i & Hi & _)%elem_of_take.
      apply list_elem_of_lookup_2 in Hi.
      apply elem_of_cons in Hi as [->|Hin].
      * left. exists k'. split; [done|by left].
      * right. split; [done|]. intros k'' v'' [= -> _].
        rewrite find_pair_None in Hf. rewrite key_eqb_sym. by apply Hf.
Qed.

Lemma lru_run_last_put cap ops : ∀ (o : list (K * V)) k kv,
  kv ∈ lru_run cap ops o → kv.1 == k →
  last_put k ops = Some kv.2 ∨ (last_put k ops = None ∧ kv ∈ o).
Proof.
  induction ops as [|c ops IH]; intros o k kv Hin Hk; [by right|].
  simpl in Hin. destruct (IH _ _ _ Hin Hk) as [Hl|[Hl Hin']]; simpl; rewrite Hl.
  - by left.
  - destruct (lru_step_elem cap o c kv Hin') as [(k' & -> & Hk')|[Ho Hc]].
    + left. assert (k' == k) as ->; [|done].
      destruct Hk' as [->|Hk']; [done|]. by apply (key_eqb_trans k' kv.1 k).
    + destruct c as [k'|k' v']; [by right|].
      rewrite (key_eqb_neq_r kv.1 k k' Hk (Hc k' v' eq_refl)). by right.
Qed.

(** ** Further properties of the code *)

(** X1 (the cache is the list model).  On a fresh cache of capacity
    [cap], after any feasible sequence of calls, the recency order is what
    the list model computes, and [Get] of any key answers what the model
    answers. *)
Theorem run_as_list cap ops k :
  1 ≤ cap ≤ max_int → feasible cap ops →
  ∃ s0 s s', NewLRUCache cap = Ok s0 ∧ run ops s0 = Ok (tt, s) ∧
    order s = lru_run cap ops [] ∧
    Get k s = Ok (lru_answer k (lru_run cap ops []), s').
Proof.
  intros Hcap Hfeas.
  destruct (New_run_refines cap ops Hcap Hfeas)
    as (s & l & Hnew & Hrun & Hord & Hr & _).
  destruct (Get_refines s l k Hr) as (s' & _ & Hget & _).
  eexists _, s, s'. split; [done|]. split; [done|]. split; [done|].
  by rewrite <- Hord.
Qed.

(** X2 ([Get] returns the last value put).  After any feasible sequence
    of calls on a fresh cache, a [Get] that finds a key returns the value
    of the last [Put] of that key (of a key [==] to it) in the sequence;
    and a key that was never [Put] is not found, the store staying as it
    is. *)
Theorem Get_returns_last_put cap ops k :
  1 ≤ cap ≤ max_int → feasible cap ops →
  ∃ s0 s, NewLRUCache cap = Ok s0 ∧ run ops s0 = Ok (tt, s) ∧
    (∀ v s', Get k s = Ok ((v, true), s') → last_put k ops = Some v) ∧
    (last_put k ops = None → Get k s = Ok ((zeroValue, false), s)).
Proof.
  intros Hcap Hfeas.
  destruct (New_run_refines cap ops Hcap Hfeas)
    as (s & l & Hnew & Hrun & Hord & Hr & _).
  destruct (Get_refines s l k Hr) as (s1 & _ & Hget & _).
  eexists _, s. split; [done|]. split; [done|].
  assert (∀ kv, find_pair k (order s) = Some kv → last_put k ops = Some kv.2)
    as Hlast.
  { intros kv [Hin Hk]%find_pair_Some. rewrite Hord in Hin.
    destruct (lru_run_last_put cap ops [] k kv Hin Hk) as [?|[_ Hnil]]; [done|].
    by apply elem_of_nil in Hnil. }
  split.
  - intros v s' Hget'. rewrite Hget in Hget'. unfold lru_answer in Hget'.
    destruct (find_pair k (order s)) as [kv|] eqn:Hf; [|done].
    injection Hget' as <- _. by apply Hlast.
  - intros Hnone. apply Get_absent.
    destruct (cacheMap (cache s) !! k) as [p|] eqn:Hk; [exfalso|done].
    destruct (Indexed_cell _ _ _ _ (proj2 (proj1 Hr)) Hk) as (_ & e & He & _).
    rewrite (Hlast _ (find_pair_order s l k p e (proj1 Hr) Hk He)) in Hnone.
    done.
Qed.

(** X3 (a key just used is not the next one evicted).  With capacity at
    least 2, after a [Get] that finds key [k], the [Put] of a new key
    leaves [k] in the cache with its value, full cache or not. *)
Theorem recently_used_survives cap s k k' v' :
  reachable cap s → 2 ≤ cap → size (cache s) < max_int →
  is_Some (cacheMap (cache s) !! k) → cacheMap (cache s) !! k' = None →
  ∃ v s1 s2 s3, Get k s = Ok ((v, true), s1) ∧
    Put k' v' s1 = Ok (tt, s2) ∧
    Get k s2 = Ok ((v, true), s3).
Proof.
  intros (l & Hr & Hcap)%reachable_Repr Hcap2 Hroom [p Hk] Hk'.
  destruct (Indexed_cell _ _ _ _ (proj2 (proj1 Hr)) Hk) as (Hin & e & He & Hke).
  pose proof (find_pair_order s l k p e (proj1 Hr) Hk He) as Hf.
  pose proof (find_pair_order_None s l k' (proj1 Hr) Hk') as Hf'.
  assert (k != k') as Hne.
  { destruct (key_eqb k k') eqn:Hkk; [|done].
    rewrite (Indexed_lookup s l k' p e (proj2 (proj1 Hr)) Hin He) in Hk';
      [done|]. by apply (key_eqb_trans (key e) k k'). }
  assert (key e != k') as Hne'.
  { apply (key_eqb_neq_l k (key e) k'); [by rewrite key_eqb_sym|done]. }
  destruct (Get_refines s l k Hr) as (s1 & l1 & Hget & Hord1 & Hr1 & Hc1 & Hz1).
  unfold lru_answer in Hget. unfold lru_get in Hord1. rewrite Hf in Hget, Hord1.
  destruct (Put_refines s1 l1 k' v' Hr1) as (s2 & l2 & Hput & Hord2 & Hr2 & _);
    [lia|].
  assert (find_pair k' (order s1) = None) as Hf1.
  { rewrite Hord1. simpl. rewrite Hne'. by rewrite find_pair_filter_ne. }
  unfold lru_put in Hord2. rewrite Hf1, Hc1, Hcap, Hord1 in Hord2.
  destruct (Z.to_nat cap) as [|[|n]] eqn:Hn; [lia|lia|]. simpl in Hord2.
  destruct (Get_refines s2 l2 k Hr2) as (s3 & _ & Hget2 & _).
  unfold lru_answer in Hget2. rewrite Hord2 in Hget2. simpl in Hget2.
  rewrite (key_eqb_sym k' k), Hne, Hke in Hget2.
  by exists (value e), s1, s2, s3.
Qed.

(** X4 (an evicted key is gone).  When the cache is full, the [Put] of a
    new key drops the pair at the end of the recency order, and a [Get]
    of the dropped key then finds nothing and changes nothing. *)
Theorem evicted_key_is_gone cap s k v kt vt rest :
  reachable cap s → size (cache s) = cap → size (cache s) < max_int →
  cacheMap (cache s) !! k = None → order s = rest ++ [(kt, vt)] →
  ∃ s1, Put k v s = Ok (tt, s1) ∧ order s1 = (k, v) :: rest ∧
        Get kt s1 = Ok ((zeroValue, false), s1).
Proof.
  intros (l & Hr & Hcap)%reachable_Repr Hfull Hroom Hk Hord.
  destruct (Put_refines s l k v Hr Hroom) as (s1 & l1 & Hput & Hord1 & Hr1 & _).
  unfold lru_put in Hord1.
  rewrite (find_pair_order_None s l k (proj1 Hr) Hk), Hcap, Hord in Hord1.
  destruct (Repr_bounds s l Hr) as (_ & _ & Hlen).
  rewrite take_snoc_full in Hord1 by (rewrite <- Hord; lia).
  exists s1. split; [done|]. split; [done|]. apply Get_absent.
  destruct (cacheMap (cache s1) !! kt) as [q|] eqn:Hkt; [exfalso|done].
  destruct (proj1 (order_keys s1 l1 kt (proj1 Hr1)) (mk_is_Some _ _ Hkt))
    as (kv & Hin & Hkv).
  rewrite Hord1 in Hin. apply elem_of_cons in Hin as [->|Hin].
  - simpl in Hkv.
    assert (is_Some (cacheMap (cache s) !! k)) as [? ?]; [|congruence].
    apply (order_keys s l k (proj1 Hr)). exists (kt, vt). split.
    + rewrite Hord. apply elem_of_app. right. left.
    + simpl. by rewrite key_eqb_sym.
  - destruct (order_last s l rest kt vt (proj1 (proj1 Hr)) Hord)
      as (l0 & t & et & Hl & Het & Hpay & Hrest).
    rewrite Hl in Hr. rewrite Hrest in Hin.
    pose proof (order_snoc_apart s l0 t et kv (proj1 Hr) Het Hin) as Hap.
    unfold payload in Hpay. injection Hpay as Hkey _. rewrite Hkey in Hap.
    congruence.
Qed.

(** X5 (the cache never shrinks).  No call lowers [size]: a call adds at
    most one entry, never takes the count above the capacity, and a full
    cache stays full. *)
Theorem size_never_shrinks cap s c :
  reachable cap s → size (cache s) < max_int →
  ∃ s', exec c s = Ok (tt, s') ∧
    size (cache s) ≤ size (cache s') ≤ size (cache s) + 1 ∧
    size (cache s') ≤ cap ∧
    (size (cache s) = cap → size (cache s') = cap) ∧
    size (cache s') = Z.of_nat (length (order s')).
Proof.
  intros (l & Hr & Hcap)%reachable_Repr Hroom.
  destruct (exec_refines s l c Hr Hroom) as (s' & l' & Hrun & _ & Hr' & Hc & Hz).
  destruct (Repr_bounds s' l' Hr') as (Hle & _ & Hlen).
  exists s'. split; [done|]. split; [done|]. rewrite Hc, Hcap in Hle.
  split; [done|]. split; [lia|done].
Qed.

Lemma note_put_length ks c : (length ks ≤ length (note_put ks c))%nat.
Proof.
  destruct c as [k|k v]; simpl; [done|]. destruct (seen k ks); simpl; lia.
Qed.

(** The keys noted so far against the map: below capacity nothing has
    been evicted, and the map finds exactly the keys noted. *)
Lemma exec_keys s l c ks :
  Repr s l → size (cache s) < max_int →
  (size (cache s) < capacity (cache s) →
   Z.of_nat (length ks) = size (cache s) ∧
   ∀ k, seen k ks = true ↔ is_Some (cacheMap (cache s) !! k)) →
  (size (cache s) = capacity (cache s) →
   capacity (cache s) ≤ Z.of_nat (length ks)) →
  ∃ s' l', exec c s = Ok (tt, s') ∧ Repr s' l' ∧
    capacity (cache s') = capacity (cache s) ∧
    size (cache s) ≤ size (cache s') ≤ size (cache s) + 1 ∧
    (size (cache s') < capacity (cache s) →
     Z.of_nat (length (note_put ks c)) = size (cache s') ∧
     ∀ k, seen k (note_put ks c) = true ↔ is_Some (cacheMap (cache s') !! k)) ∧
    (size (cache s') = capacity (cache s) →
     capacity (cache s) ≤ Z.of_nat (length (note_put ks c))).
Proof.
  intros Hr Hroom Hlow Hfull. pose proof Hr as [Hsh (Hz & Hc & Hle)].
  pose proof (note_put_length ks c) as Hgrow.
  destruct c as [k|k v]; simpl in *;
    destruct (cacheMap (cache s) !! k) as [p|] eqn:Hk.
  - destruct (Indexed_cell _ _ _ _ (proj2 Hsh) Hk) as (Hin & e & He & _).
    apply list_elem_of_split in Hin as (l1 & l2 & ->).
    destruct (Get_present s l1 p l2 k e Hsh Hk He)
      as (s' & Hrun & Hsh' & (Hc' & Hz' & Hm' & _) & _).
    exists s', (p :: l1 ++ l2). rewrite (bind_Ok _ _ _ _ _ Hrun), Hm', Hz'.
    split; [done|]. split.
    { split; [done|]. unfold Counted. rewrite length_bump. lia. }
    split; [done|]. split; [lia|]. by split.
  - exists s, l. rewrite (bind_Ok _ _ _ _ _ (Get_absent s k Hk)).
    split; [done|]. split; [done|]. split; [done|]. split; [lia|]. by split.
  - destruct (Indexed_cell _ _ _ _ (proj2 Hsh) Hk) as (Hin & e & He & _).
    apply list_elem_of_split in Hin as (l1 & l2 & ->).
    destruct (Put_present s l1 p l2 k v e Hsh Hk He)
      as (s' & Hrun & Hsh' & Hc' & Hz' & Hm' & _).
    exists s', (p :: l1 ++ l2). rewrite Hm', Hz'.
    split; [done|]. split.
    { split; [done|]. unfold Counted. rewrite length_bump. lia. }
    split; [done|]. split; [lia|]. split.
    + intros Hsmall. destruct (Hlow Hsmall) as [Hlen Hseen].
      assert (seen k ks = true) as -> by (apply Hseen; by eexists). done.
    + intros Hfl. specialize (Hfull Hfl). lia.
  - destruct (Put_absent s l k v Hr Hk)
      as (s1 & s' & _ & Hrun & _ & Hc' & _ & Hcase).
    rewrite (wrap64_id (size (cache s) + 1)) in Hcase
      by (unfold min_int, max_int in *; lia).
    destruct Hcase as [(Hfit & _ & Hsh' & Hz' & Hm')|
                       (Hover & l0 & t & et & -> & _ & _ & Hsh' & Hz' & Hm')].
    + destruct Hlow as [Hlen Hseen]; [lia|].
      assert (seen k ks = false) as Hnew.
      { destruct (seen k ks) eqn:Hs; [|done].
        apply Hseen in Hs as [? ?]. congruence. }
      rewrite Hnew in Hgrow |- *.
      eexists s', _. split; [done|]. split.
      { split; [done|]. unfold Counted. simpl length. lia. }
      split; [done|]. split; [lia|]. split.
      * intros _. split; [simpl length; lia|]. intros k0.
        rewrite Hm', lookup_insert_go. simpl.
        destruct (key_eqb k k0); simpl; [|apply Hseen].
        split; [by eexists|done].
      * intros Hfl. simpl length. lia.
    + eexists s', _. split; [done|]. split.
      { split; [done|]. unfold Counted. rewrite length_app in Hz.
        simpl length in *. lia. }
      split; [done|]. split; [lia|]. split; [lia|].
      intros _. specialize (Hfull ltac:(lia)). lia.
Qed.

Lemma run_keys ops : ∀ s l ks,
  Repr s l →
  capacity (cache s) < max_int ∨
    size (cache s) + Z.of_nat (length ops) ≤ max_int →
  (size (cache s) < capacity (cache s) →
   Z.of_nat (length ks) = size (cache s) ∧
   ∀ k, seen k ks = true ↔ is_Some (cacheMap (cache s) !! k)) →
  (size (cache s) = capacity (cache s) →
   capacity (cache s) ≤ Z.of_nat (length ks)) →
  ∃ s' l', run ops s = Ok (tt, s') ∧ Repr s' l' ∧
    capacity (cache s') = capacity (cache s) ∧
    (size (cache s') < capacity (cache s) →
     Z.of_nat (length (fold_left note_put ops ks)) = size (cache s')) ∧
    (size (cache s') = capacity (cache s) →
     capacity (cache s) ≤ Z.of_nat (length (fold_left note_put ops ks))).
Proof.
  induction ops as [|c ops IH]; intros s l ks Hr Hroom Hlow Hfull.
  - exists s, l. simpl. split; [done|]. split; [done|]. split; [done|].
    split; [|done]. intros Hsmall. by destruct (Hlow Hsmall).
  - assert (size (cache s) < max_int) as Hlt.
    { destruct Hr as [_ (_ & _ & Hle)]. simpl length in Hroom. lia. }
    destruct (exec_keys s l c ks Hr Hlt Hlow Hfull)
      as (s1 & l1 & Hrun1 & Hr1 & Hc1 & Hz1 & Hlow1 & Hfull1).
    destruct (IH s1 l1 (note_put ks c) Hr1)
      as (s2 & l2 & Hrun2 & Hr2 & Hc2 & Hlow2 & Hfull2).
    { rewrite Hc1. simpl length in Hroom. lia. }
    { by rewrite Hc1. }
    { by rewrite Hc1. }
    exists s2, l2. simpl. rewrite (bind_Ok _ _ _ _ _ Hrun1).
    rewrite Hc1 in *. split; [done|]. split; [done|]. by split.
Qed.

(** X6 (how full the cache is).  After any feasible sequence of calls on
    a fresh cache, [size] is the number of distinct keys put so far (a
    key counting as new when it is [==] to none put before it), or the
    capacity if that is smaller. *)
Theorem size_is_min_capacity_distinct_keys cap ops :
  1 ≤ cap ≤ max_int → feasible cap ops →
  ∃ s0 s, NewLRUCache cap = Ok s0 ∧ run ops s0 = Ok (tt, s) ∧
    size (cache s) = cap `min` Z.of_nat (length (put_keys ops)).
Proof.
  intros [Hpos Hmax] Hfeas.
  destruct (New_Repr cap _ Hmax (New_Ok cap ltac:(lia))) as (Hr0 & Hc0 & Hz0).
  destruct (run_keys ops _ [] [] Hr0) as (s & l & Hrun & Hr & Hc & Hlow & Hfull).
  { rewrite Hc0, Hz0. destruct Hfeas; [by left|right; lia]. }
  { intros _. split; [done|]. intros k. simpl. split; [done|].
    by intros [? ?]. }
  { rewrite Hc0, Hz0. lia. }
  eexists _, s. split; [apply New_Ok; lia|]. split; [done|].
  simpl in Hc, Hlow, Hfull. fold (put_keys ops) in Hlow, Hfull.
  destruct (Repr_bounds s l Hr) as (Hle & _ & _). rewrite Hc in Hle.
  destruct (decide (size (cache s) < cap)) as [Hsmall|Hno].
  - specialize (Hlow Hsmall). lia.
  - specialize (Hfull ltac:(lia)). lia.
Qed.

(** X7 (the list is linked both ways).  In every reachable store the
    walk from [tail] along [prev] meets exactly the entries of the walk
    from [head] along [next], in the opposite order; [head] and [tail] are
    nil together; the head entry has no [prev] and the tail entry no
    [next]. *)
Theorem back_links cap s :
  reachable cap s →
  chain_back s = reverse (chain s) ∧
  (head (cache s) = None ↔ tail (cache s) = None) ∧
  (∀ p e, head (cache s) = Some p → cells s !! p = Some e → prev e = None) ∧
  (∀ p e, tail (cache s) = Some p → cells s !! p = Some e → next e = None).
Proof.
  intros (l & [[Hl _] _] & _)%reachable_Repr.
  rewrite (Linked_chain s l Hl). split; [by apply Linked_chain_back|].
  destruct Hl as (_ & Hs & -> & ->). split; [|split].
  - destruct l as [|q l]; [done|]. simpl. split; [done|].
    by intros ?%last_None.
  - intros p e Hp He. destruct l as [|q l]; [done|]. injection Hp as ->.
    destruct Hs as [(e' & He' & Hpv & _) _]. congruence.
  - intros p e Hp He. apply last_Some in Hp as [l' ->].
    apply seg_app in Hs as [_ [(e' & He' & _ & Hnx) _]]. simpl in Hnx.
    congruence.
Qed.

(** X8 ([remove]).  Unlinking an entry of the list, wherever it stands,
    leaves the other entries in their order and linked both ways, clears
    the [prev] and [next] of the entry itself, and touches nothing else:
    the keys and values of all cells, the map, the size and the capacity
    stay (the map still holds the key of the unlinked entry). *)
Theorem remove_unlinks cap s p :
  reachable cap s → p ∈ chain s →
  ∃ s', remove p s = Ok (tt, s') ∧
    chain s' = filter (λ q, q ≠ p) (chain s) ∧
    chain_back s' = reverse (chain s') ∧
    (∃ e, cells s' !! p = Some e ∧ prev e = None ∧ next e = None) ∧
    payload <$> cells s' = payload <$> cells s ∧
    cacheMap (cache s') = cacheMap (cache s) ∧
    size (cache s') = size (cache s) ∧
    capacity (cache s') = capacity (cache s).
Proof.
  intros (l & [[Hl _] _] & _)%reachable_Repr.
  rewrite (Linked_chain s l Hl). intros (l1 & l2 & ->)%list_elem_of_split.
  destruct (remove_spec s l1 p l2 Hl) as (s' & Hrun & Hl' & Hc & Hz & Hm & Hpl).
  exists s'. split; [done|]. rewrite (Linked_chain s' _ Hl').
  split; [symmetry; apply filter_bump_loc, Hl|].
  split; [by apply Linked_chain_back|].
  split; [by eapply remove_clears|done].
Qed.

(** X9 ([addFront]).  Linking a cell that is not on the list makes it the
    head, in front of the old entries; it also becomes the tail when the
    list was empty, and otherwise the tail stays.  The list remains linked
    both ways, and keys, values, map, size and capacity are untouched. *)
Theorem addFront_links cap s p :
  reachable cap s → is_Some (cells s !! p) → p ∉ chain s →
  ∃ s', addFront p s = Ok (tt, s') ∧
    chain s' = p :: chain s ∧
    chain_back s' = reverse (chain s') ∧
    head (cache s') = Some p ∧
    (chain s = [] → tail (cache s') = Some p) ∧
    (chain s ≠ [] → tail (cache s') = tail (cache s)) ∧
    payload <$> cells s' = payload <$> cells s ∧
    cacheMap (cache s') = cacheMap (cache s) ∧
    size (cache s') = size (cache s) ∧
    capacity (cache s') = capacity (cache s).
Proof.
  intros (l & [[Hl _] _] & _)%reachable_Repr Hcell.
  rewrite (Linked_chain s l Hl). intros Hp.
  destruct (addFront_spec s l p Hl Hp Hcell)
    as (s' & Hrun & Hl' & Hc & Hz & Hm & Hpl).
  exists s'. split; [done|]. rewrite (Linked_chain s' _ Hl').
  split; [done|]. split; [by apply Linked_chain_back|].
  destruct Hl as (_ & _ & _ & Ht), Hl' as (_ & _ & Hh' & Ht').
  split; [done|]. split; [by intros ->|]. split; [|done].
  intros Hne. rewrite Ht', Ht, last_cons.
  destruct (last l) eqn:Hlast; [done|]. by apply last_None in Hlast.
Qed.

(** X10 ([moveToFront]).  Moving an entry of the list to the front puts
    it first and keeps the others in their order: the same entries, none
    lost or added, still linked both ways, with keys, values, map, size
    and capacity untouched. *)
Theorem moveToFront_order cap s p :
  reachable cap s → p ∈ chain s →
  ∃ s', moveToFront p s = Ok (tt, s') ∧
    chain s' = p :: filter (λ q, q ≠ p) (chain s) ∧
    chain s' ≡ₚ chain s ∧
    chain_back s' = reverse (chain s') ∧
    payload <$> cells s' = payload <$> cells s ∧
    cacheMap (cache s') = cacheMap (cache s) ∧
    size (cache s') = size (cache s) ∧
    capacity (cache s') = capacity (cache s).
Proof.
  intros (l & [[Hl _] _] & _)%reachable_Repr.
  rewrite (Linked_chain s l Hl). intros (l1 & l2 & ->)%list_elem_of_split.
  destruct (moveToFront_spec s l1 p l2 Hl)
    as (s' & Hrun & Hl' & (Hc & Hz & Hm & Hpl) & _).
  exists s'. split; [done|]. rewrite (Linked_chain s' _ Hl').
  split; [by rewrite filter_bump_loc by apply Hl|].
  split; [apply Permutation_middle|].
  split; [by apply Linked_chain_back|done].
Qed.

(** X11 ([removeTail]).  On a store whose list is empty [removeTail]
    changes nothing.  Otherwise it takes the last entry off the list and
    one off [size], and applies [delete] to the map at the key of that
    entry: a lookup of a key [==] to it then finds nothing and every
    other lookup is as before.  Afterwards a lookup still finds a key exactly when
    the list holds a key [==] to it. *)
Theorem removeTail_evicts cap s :
  reachable cap s →
  (chain s = [] → removeTail s = Ok (tt, s)) ∧
  (∀ ch t, chain s = ch ++ [t] →
   ∃ et s', cells s !! t = Some et ∧ removeTail s = Ok (tt, s') ∧
     chain s' = ch ∧ order s = order s' ++ [payload et] ∧
     cacheMap (cache s') = delete (key et) (cacheMap (cache s)) ∧
     (∀ k, cacheMap (cache s') !! k =
           if key_eqb (key et) k then None else cacheMap (cache s) !! k) ∧
     (∀ k, is_Some (cacheMap (cache s') !! k) ↔
           ∃ kv, kv ∈ order s' ∧ kv.1 == k) ∧
     size (cache s') = size (cache s) - 1 ∧
     capacity (cache s') = capacity (cache s)).
Proof.
  intros (l & [Hsh (Hz & Hcb & Hle)] & _)%reachable_Repr.
  rewrite (Linked_chain s l (proj1 Hsh)). split.
  - intros ->. destruct Hsh as [(_ & _ & _ & Ht) _].
    unfold removeTail, readCache, bind. by rewrite Ht.
  - intros ch t ->.
    destruct (seg_lookup (cells s) None (ch ++ [t]) None t) as [et Het];
      [apply Hsh|apply elem_of_app; right; left|].
    destruct (removeTail_spec s ch t et Hsh Het)
      as (s' & Hrun & Hsh' & Hc' & Hz' & Hm' & Hpl').
    exists et, s'. split; [done|]. split; [done|].
    split; [by apply Linked_chain, Hsh'|].
    split.
    { rewrite (order_snoc s ch t et (proj1 Hsh) Het).
      rewrite (order_Linked s' _ (proj1 Hsh')). f_equal.
      apply omap_agree. intros q _. unfold ent.
      by rewrite <- !lookup_fmap, Hpl'. }
    split; [done|].
    split; [intros k; rewrite Hm'; apply lookup_delete_go|].
    split; [intros k; by eapply order_keys|].
    split; [|done]. rewrite Hz'. apply wrap64_id.
    rewrite length_app in Hz. simpl in Hz.
    unfold min_int, max_int in *. lia.
Qed.

Lemma with_value_same (e : cacheEntry) : with_value (value e) e = e.
Proof. by destruct e. Qed.

(** X12 (overwriting a key).  Two [Put]s in a row of a key that is [==]
    to itself: the second one returns, keeps the list, the map and the
    size of the first and only replaces the value at the front, which
    [Get] then returns. *)
Theorem Put_twice_overwrites cap s k v1 v2 :
  reachable cap s → k == k →
  ∃ s1 s2 k0 rest, Put k v1 s = Ok (tt, s1) ∧ Put k v2 s1 = Ok (tt, s2) ∧
    k0 == k ∧
    order s1 = (k0, v1) :: rest ∧ order s2 = (k0, v2) :: rest ∧
    chain s2 = chain s1 ∧
    cacheMap (cache s2) = cacheMap (cache s1) ∧
    size (cache s2) = size (cache s1) ∧
    Get k s2 = Ok ((v2, true), s2).
Proof.
  intros (l & Hr & _)%reachable_Repr Hkk.
  destruct (Put_spec s l k v1 Hr)
    as (s1 & p & l' & k0 & Hrun1 & Hsh1 & Hent1 & Hk0).
  assert (k0 == k) as Hk0' by (by destruct Hk0 as [->|]).
  destruct (ent_cell s1 p k0 v1 Hent1) as (e1 & He1 & Hke1 & _).
  assert (cacheMap (cache s1) !! k = Some p) as Hk1.
  { apply (Indexed_lookup s1 (p :: l') k p e1 (proj2 Hsh1)); [left|done|].
    by rewrite Hke1. }
  destruct (Put_present s1 [] p l' k v2 e1 Hsh1 Hk1 He1)
    as (s2 & Hrun2 & Hsh2 & _ & Hz2 & Hm2 & Hpl2).
  rewrite Hke1 in Hpl2.
  assert (ent s2 p = Some (k0, v2)) as Hent2.
  { rewrite (ent_insert s1 s2 p (k0, v2) p Hpl2). by destruct (decide (p = p)). }
  destruct (ent_cell s2 p k0 v2 Hent2) as (e2 & He2 & _ & Hv2).
  rewrite <- Hm2 in Hk1.
  destruct (Get_present s2 [] p l' k e2 Hsh2 Hk1 He2)
    as (s3 & Hget & _ & _ & Hid).
  exists s1, s2, k0, (omap (ent s1) l').
  split; [done|]. split; [done|]. split; [done|].
  split.
  { rewrite (order_Linked s1 _ (proj1 Hsh1)). csimpl.
    fold (ent s1 p) in Hent1. by rewrite Hent1. }
  split.
  { rewrite (order_Linked s2 _ (proj1 Hsh2)). csimpl. rewrite Hent2.
    f_equal. apply omap_agree. intros q Hq.
    rewrite (ent_insert s1 s2 p (k0, v2) q Hpl2).
    destruct (decide (p = q)) as [<-|]; [|done].
    destruct Hsh1 as [(Hnd & _) _]. by apply NoDup_cons in Hnd as [? _]. }
  split.
  { by rewrite (Linked_chain s2 _ (proj1 Hsh2)),
               (Linked_chain s1 _ (proj1 Hsh1)). }
  split; [done|]. split; [done|]. by rewrite Hget, Hv2, Hid.
Qed.

(** X13 ([Put] is idempotent).  Repeating a [Put] with the same key and
    value straight away returns the very same store, for a key that is
    [==] to itself. *)
Theorem Put_idempotent cap s k v :
  reachable cap s → k == k →
  ∃ s1, Put k v s = Ok (tt, s1) ∧ Put k v s1 = Ok (tt, s1).
Proof.
  intros (l & Hr & _)%reachable_Repr Hkk.
  destruct (Put_spec s l k v Hr)
    as (s1 & p & l' & k0 & Hrun1 & Hsh1 & Hent1 & Hk0).
  assert (k0 == k) as Hk0' by (by destruct Hk0 as [->|]).
  exists s1. split; [done|].
  destruct (ent_cell s1 p k0 v Hent1) as (e & He & Hke & Hv).
  assert (cacheMap (cache s1) !! k = Some p) as Hk1.
  { apply (Indexed_lookup s1 (p :: l') k p e (proj2 Hsh1)); [left|done|].
    by rewrite Hke. }
  destruct Hsh1 as [(_ & _ & Hh & _) _]. simpl in Hh.
  destruct s1 as [m c]. simpl in *.
  unfold Put, readCache. unfold bind at 1. simpl. rewrite Hk1.
  rewrite (bind_Ok _ _ _ _ _ (modifyEntry_Ok _ _ _ _ _ He)).
  rewrite <- Hv, with_value_same, insert_id by done.
  unfold moveToFront, readCache, bind. simpl.
  by destruct (decide (Some p = head c)).
Qed.

(** X14 (reading does not disturb the contents).  A [Get] of one key
    leaves the answer to a [Get] of every key as it was. *)
Theorem Get_keeps_answers cap s k k' :
  reachable cap s →
  ∃ r s1 a s2 s2', Get k s = Ok (r, s1) ∧
    Get k' s = Ok (a, s2) ∧ Get k' s1 = Ok (a, s2').
Proof.
  intros (l & Hr & _)%reachable_Repr.
  destruct (Get_refines s l k Hr) as (s1 & l1 & Hget & Hord1 & Hr1 & _).
  destruct (Get_refines s l k' Hr) as (s2 & _ & Hget' & _).
  destruct (Get_refines s1 l1 k' Hr1) as (s2' & _ & Hget1 & _).
  eexists _, s1, _, s2, s2'. split; [done|]. split; [done|].
  rewrite Hget1. do 2 f_equal. unfold lru_answer. rewrite Hord1.
  unfold lru_get. destruct (find_pair k (order s)) as [kv|] eqn:Hf; [|done].
  pose proof (find_pair_Some k kv _ Hf) as [_ Hkv].
  simpl. destruct (key_eqb kv.1 k') eqn:Hkk.
  - rewrite <- (find_pair_equiv k k'), Hf; [done|].
    apply (key_eqb_trans k kv.1 k'); [by rewrite key_eqb_sym|done].
  - rewrite find_pair_filter_ne; [done|].
    by apply (key_eqb_neq_l kv.1 k k').
Qed.

(** X15 (what a [Put] does to the other keys).  After [Put] of key [k],
    a [Get] of any key that is not [==] to [k] answers as before the
    [Put], except for the one key that the [Put] evicted: that happens
    only when [k] was new and the cache full, the key is [==] to the one
    at the end of the recency order, and its [Get] then finds nothing. *)
Theorem Put_keeps_other_answers cap s k v k' :
  reachable cap s → size (cache s) < max_int → k' != k →
  ∃ s1 a s2 a1 s2', Put k v s = Ok (tt, s1) ∧
    Get k' s = Ok (a, s2) ∧ Get k' s1 = Ok (a1, s2') ∧
    (a1 = a ∨
     (a1 = (zeroValue, false) ∧ cacheMap (cache s) !! k = None ∧
      size (cache s) = cap ∧
      ∃ rest kt vt, order s = rest ++ [(kt, vt)] ∧ kt == k')).
Proof.
  intros (l & Hr & Hcap)%reachable_Repr Hroom Hne.
  assert (k != k') as Hne' by (by rewrite key_eqb_sym).
  destruct (Put_refines s l k v Hr Hroom) as (s1 & l1 & Hput & Hord1 & Hr1 & _).
  destruct (Get_refines s l k' Hr) as (s2 & _ & Hget & _).
  destruct (Get_refines s1 l1 k' Hr1) as (s2' & _ & Hget1 & _).
  eexists s1, _, s2, _, s2'. split; [done|]. split; [done|]. split; [done|].
  unfold lru_answer. rewrite Hord1. unfold lru_put.
  destruct (cacheMap (cache s) !! k) as [p|] eqn:Hk.
  - destruct (Indexed_cell _ _ _ _ (proj2 (proj1 Hr)) Hk) as (_ & e & He & Hke).
    rewrite (find_pair_order s l k p e (proj1 Hr) Hk He). left. simpl.
    rewrite (key_eqb_neq_l k (key e) k') by (by rewrite 1?key_eqb_sym).
    by rewrite find_pair_filter_ne.
  - rewrite (find_pair_order_None s l k (proj1 Hr) Hk).
    destruct (Repr_bounds s l Hr) as (Hle & _ & Hlen).
    destruct (decide (size (cache s) < capacity (cache s))) as [Hfit|Hfull].
    + left. rewrite take_ge by (simpl; lia). simpl. by rewrite Hne'.
    + pose proof Hr as [Hsh (Hz & Hcb & _)].
      assert (∃ rest kt vt, order s = rest ++ [(kt, vt)])
        as (rest & kt & vt & Ho).
      { destruct (last (order s)) as [[kt vt]|] eqn:Hl.
        - apply last_Some in Hl as [rest Hl]. eauto.
        - apply last_None in Hl. rewrite Hl in Hlen. simpl in Hlen. lia. }
      rewrite Ho in Hlen |- *.
      rewrite take_snoc_full by lia. simpl. rewrite Hne'.
      destruct (key_eqb kt k') eqn:Hkt.
      * right. assert (find_pair k' rest = None) as ->.
        { apply find_pair_None. intros kv Hin.
          destruct (order_last s l rest kt vt (proj1 Hsh) Ho)
            as (l0 & t & et & Hl & Het & Hpay & Hrest).
          rewrite Hl in Hsh. rewrite Hrest in Hin.
          pose proof (order_snoc_apart s l0 t et kv Hsh Het Hin) as Hap.
          unfold payload in Hpay. injection Hpay as Hkey _.
          rewrite Hkey in Hap. by apply (key_eqb_neq_r kt k' kv.1). }
        split; [done|]. split; [done|]. split; [lia|]. by exists rest, kt, vt.
      * left. by rewrite find_pair_snoc_ne.
Qed.

(** X16 ([Put] of a new key).  If the lookup of the key finds nothing
    and the size counter is below [max_int], [Put] first allocates a
    cell [p] that was not in use, holding the key and the value, puts it
    in front of the list, assigns it to the key in the map and adds one
    to [size] (the store [s1]).  With room left that is the result.
    With the cache full, the size now exceeds the capacity and
    [removeTail] runs once on [s1]: the one entry at the tail of the old
    order is dropped from the list, [delete] is applied to the map at
    its key, everything else stays, and [size] is back to what it was:
    one eviction, never more. *)
Theorem Put_new cap s k v :
  reachable cap s → size (cache s) < max_int →
  cacheMap (cache s) !! k = None →
  let p := fresh (dom (cells s)) in
  ∃ s1 s',
    Put_insert k v s = Ok (tt, s1) ∧
    cells s !! p = None ∧
    payload <$> cells s1 = <[p := (k, v)]> (payload <$> cells s) ∧
    chain s1 = p :: chain s ∧
    order s1 = (k, v) :: order s ∧
    cacheMap (cache s1) = <[k := p]> (cacheMap (cache s)) ∧
    size (cache s1) = size (cache s) + 1 ∧
    Put k v s = Ok (tt, s') ∧
    head (cache s') = Some p ∧
    capacity (cache s') = capacity (cache s) ∧
    payload <$> cells s' = <[p := (k, v)]> (payload <$> cells s) ∧
    ((size (cache s) < cap ∧ s' = s1)
     ∨
     (size (cache s) = cap ∧
      ∃ ch rest t et,
        chain s = ch ++ [t] ∧ order s = rest ++ [payload et] ∧
        tail (cache s) = Some t ∧ cells s !! t = Some et ∧
        removeTail s1 = Ok (tt, s') ∧
        chain s' = p :: ch ∧
        order s' = (k, v) :: rest ∧
        cacheMap (cache s') =
          delete (key et) (<[k := p]> (cacheMap (cache s))) ∧
        size (cache s') = size (cache s))).
Proof.
  intros (l & Hr & Hcap)%reachable_Repr Hroom Hk p.
  destruct (Put_absent s l k v Hr Hk)
    as (s1 & s' & Hrun1 & Hrun & Hp & Hc & Hpl & Hcase).
  destruct (Put_insert_spec s l k v (proj1 Hr) Hk)
    as (s1' & Hrun1' & Hsh1 & _ & _ & Hz1 & Hm1 & Hpl1).
  rewrite Hrun1 in Hrun1'. injection Hrun1' as <-.
  fold p in Hp, Hpl, Hcase, Hsh1, Hm1, Hpl1.
  destruct Hr as [[Hl Hix] (Hz & Hcb & Hle)].
  rewrite (wrap64_id (size (cache s) + 1)) in Hcase, Hz1
    by (unfold min_int, max_int in *; lia).
  exists s1, s'. split; [done|]. split; [done|]. split; [done|].
  split; [by rewrite (Linked_chain s1 _ (proj1 Hsh1)), (Linked_chain s l Hl)|].
  split; [by eapply order_cons_fresh; [done|apply Hsh1|..]|].
  split; [done|]. split; [done|]. split; [done|].
  destruct Hcase as [(Hfit & -> & Hsh' & Hz' & Hm')|
                     (Hfull & l0 & t & et & -> & Het & Hrt & Hsh' & Hz' & Hm')].
  - split; [apply Hsh'|]. split; [done|]. split; [done|]. left.
    split; [lia|done].
  - split; [apply Hsh'|]. split; [done|]. split; [done|]. right.
    split; [lia|]. exists l0, (omap (ent s) l0), t, et.
    rewrite (Linked_chain s' _ (proj1 Hsh')), (Linked_chain s _ Hl).
    split; [done|]. split; [by apply (order_snoc s l0 t et)|].
    split; [destruct Hl as (_ & _ & _ & ->); apply last_snoc|].
    split; [done|]. split; [done|]. split; [done|]. split; [|done].
    rewrite (order_Linked s' _ (proj1 Hsh')). csimpl.
    rewrite (ent_insert s s' p (k, v) p Hpl). destruct (decide (p = p)); [|done].
    f_equal. apply omap_agree. intros q Hq.
    rewrite (ent_insert s s' p (k, v) q Hpl).
    destruct (decide (p = q)) as [<-|]; [|done].
    destruct (ent_is_Some s _ p Hl) as [x Hx]; [apply elem_of_app; by left|].
    unfold ent in Hx. by rewrite Hp in Hx.
Qed.

Lemma order_lookup s l i kv :
  Linked s l → order s !! i = Some kv →
  ∃ p, l !! i = Some p ∧ ent s p = Some kv.
Proof.
  intros Hl. rewrite (order_Linked s l Hl).
  assert (∀ p, p ∈ l → is_Some (ent s p)) as Hall
    by (intros p; by apply (ent_is_Some s l)).
  clear Hl. revert i. induction l as [|q l IH]; intros i; [done|].
  csimpl. destruct (Hall q) as [x Hx]; [left|]. rewrite Hx.
  destruct i as [|i]; simpl.
  - intros [= <-]. by exists q.
  - intros Hi. apply IH; [|done]. intros p Hp. apply Hall. by right.
Qed.

(** X17 (what the map finds is what the list holds).  In every store
    reachable from a fresh cache by [Get] and [Put] calls, a lookup in
    the map finds a key exactly when an entry on the recency list holds
    a key [==] to it, and what it finds is that entry; no two entries of
    the list hold keys that are [==]; [size] is the length of the list;
    and the list is all that can be reached from [head]: following
    [next] for longer finds nothing more. *)
Theorem index_lookup_consistency cap s :
  reachable cap s →
  (∀ k, is_Some (cacheMap (cache s) !! k) ↔
        ∃ kv, kv ∈ order s ∧ kv.1 == k) ∧
  (∀ k p, cacheMap (cache s) !! k = Some p ↔
          p ∈ chain s ∧ ∃ e, cells s !! p = Some e ∧ key e == k) ∧
  (∀ i j kv kv', order s !! i = Some kv → order s !! j = Some kv' →
                 kv.1 == kv'.1 → i = j) ∧
  size (cache s) = Z.of_nat (length (order s)) ∧
  size (cache s) = Z.of_nat (length (chain s)) ∧
  ∀ n, (base.size (cells s) ≤ n)%nat →
       follow (cells s) n (head (cache s)) = chain s.
Proof.
  intros (l & Hr & _)%reachable_Repr.
  destruct (Repr_bounds s l Hr) as (_ & -> & Hlen).
  destruct Hr as [Hsh _]. split; [intros k; by eapply order_keys|].
  pose proof Hsh as [Hl Hix]. rewrite (Linked_chain s l Hl). split.
  { intros k p. split.
    - by apply Indexed_cell.
    - intros (Hin & e & He & Hke). by apply (Indexed_lookup s l k p e). }
  split.
  { intros i j [ki vi] [kj vj] Hi Hj Hkk. simpl in Hkk.
    destruct (order_lookup s l i _ Hl Hi) as (pi & Hpi & Hei).
    destruct (order_lookup s l j _ Hl Hj) as (pj & Hpj & Hej).
    destruct (ent_cell s pj kj vj Hej) as (ej & Hcj & Hkj & _).
    assert (cacheMap (cache s) !! kj = Some pj) as Hfind.
    { apply (Indexed_lookup s l kj pj ej Hix);
        [by eapply list_elem_of_lookup_2|done|].
      rewrite Hkj. by apply (key_eqb_refl_r ki). }
    assert (pi = pj) as ->.
    { apply (Indexed_inj s l kj pj pi ki vi Hix Hfind);
        [by eapply list_elem_of_lookup_2|done|done]. }
    destruct Hl as (Hnd & _). by eapply NoDup_lookup. }
  split; [done|]. split; [by rewrite <- Hlen|]. intros n Hn.
  pose proof (Linked_length s l Hl).
  destruct Hl as (_ & Hs & -> & _). eapply follow_seg; [done|lia].
Qed.

(** X18 (the empty-list branch of [removeTail]).  For a key that the
    lookup does not find, [Put] is [Put_insert] followed by the capacity
    check, and it calls [removeTail] only when [size > capacity].  In
    every store in which that call happens the capacity is at least 1
    and the list is not empty: [tail] points to its last entry [t], so
    the branch for a nil tail is not taken, and [removeTail] returns
    after taking exactly [t] off the list and one off [size], and
    applying [delete] to the map at the key of [t]. *)
Theorem removeTail_called_nonempty cap s k v :
  reachable cap s → cacheMap (cache s) !! k = None →
  ∃ s1, Put_insert k v s = Ok (tt, s1) ∧
    Put k v s = (if capacity (cache s1) <? size (cache s1)
                 then removeTail s1 else Ok (tt, s1)) ∧
    (capacity (cache s1) < size (cache s1) →
     1 ≤ capacity (cache s1) ∧
     ∃ ch t et s2,
       chain s1 = ch ++ [t] ∧ tail (cache s1) = Some t ∧
       cells s1 !! t = Some et ∧
       removeTail s1 = Ok (tt, s2) ∧
       chain s2 = ch ∧ order s1 = order s2 ++ [payload et] ∧
       cacheMap (cache s2) = delete (key et) (cacheMap (cache s1)) ∧
       size (cache s2) = size (cache s1) - 1).
Proof.
  intros (l & [Hsh Hcnt] & Hcap)%reachable_Repr Hk.
  destruct (Put_insert_spec s l k v Hsh Hk)
    as (s1 & Hrun1 & Hsh1 & Hp & Hc1 & Hz1 & Hm1 & Hpl1).
  exists s1. split; [done|]. split.
  { rewrite (Put_absent_split _ _ _ Hk), (bind_Ok _ _ _ _ _ Hrun1).
    unfold readCache. unfold bind at 1.
    by destruct (capacity (cache s1) <? size (cache s1)). }
  rewrite Hc1, Hz1. intros Hlt.
  destruct (Counted_nonempty s l Hcnt Hlt) as (Hn1 & Hfull & Hne).
  destruct Hcnt as (Hz & Hcb & Hle). split; [lia|].
  destruct l as [|t l0 _] using rev_ind; [done|]. clear Hne.
  set (p := fresh (dom (cells s))) in *.
  change (p :: l0 ++ [t]) with ((p :: l0) ++ [t]) in Hsh1.
  destruct (seg_lookup (cells s1) None ((p :: l0) ++ [t]) None t)
    as [et Het]; [apply Hsh1|apply elem_of_app; right; left|].
  destruct (removeTail_spec s1 (p :: l0) t et Hsh1 Het)
    as (s2 & Hrun2 & Hsh2 & Hc2 & Hz2 & Hm2 & Hpl2).
  exists (p :: l0), t, et, s2.
  split; [by apply Linked_chain, Hsh1|].
  split; [destruct Hsh1 as [(_ & _ & _ & ->) _]; apply last_snoc|].
  split; [done|]. split; [done|].
  split; [by apply Linked_chain, Hsh2|].
  split.
  { rewrite (order_snoc s1 (p :: l0) t et (proj1 Hsh1) Het).
    rewrite (order_Linked s2 _ (proj1 Hsh2)). f_equal.
    apply omap_agree. intros q _. unfold ent. by rewrite <- !lookup_fmap, Hpl2. }
  split; [done|].
  rewrite Hz2, Hz1, Hn1. apply wrap64_id. unfold min_int, max_int in *. lia.
Qed.

(** X19 (the entry just put is at the front).  In every reachable
    store, for every key and value, [Put] returns and leaves at the front
    of the recency order a pair with the new value and a key that is the
    key given or [==] to it: the entry that [Put] inserts or updates is
    not the one it evicts, whatever the capacity.  If the key is [==] to
    itself, the map then finds it and [Get] returns the value and [true],
    leaving the store as it is; if it is not, the front pair holds the
    key itself, the lookup finds nothing and [Get] returns the zero value
    and [false]. *)
Theorem Put_then_Get cap s k v :
  reachable cap s →
  ∃ s1 k0 rest, Put k v s = Ok (tt, s1) ∧
    order s1 = (k0, v) :: rest ∧ (k0 = k ∨ k0 == k) ∧
    (k == k → is_Some (cacheMap (cache s1) !! k) ∧
              Get k s1 = Ok ((v, true), s1)) ∧
    (k != k → k0 = k ∧ cacheMap (cache s1) !! k = None ∧
              Get k s1 = Ok ((zeroValue, false), s1)).
Proof.
  intros (l & Hr & _)%reachable_Repr.
  destruct (Put_spec s l k v Hr)
    as (s1 & p & l' & k0 & Hrun & Hsh1 & Hent & Hk0).
  destruct (ent_cell s1 p k0 v Hent) as (e & He & Hke & Hve).
  exists s1, k0, (omap (ent s1) l'). split; [done|].
  split.
  { rewrite (order_Linked s1 _ (proj1 Hsh1)). csimpl.
    fold (ent s1 p) in Hent. by rewrite Hent. }
  split; [done|]. split.
  - intros Hkk. assert (k0 == k) as Hk0' by (by destruct Hk0 as [->|]).
    assert (cacheMap (cache s1) !! k = Some p) as Hk.
    { apply (Indexed_lookup s1 (p :: l') k p e (proj2 Hsh1)); [left|done|].
      by rewrite Hke. }
    destruct (Get_present s1 [] p l' k e Hsh1 Hk He)
      as (s2 & Hrun2 & _ & _ & Hid).
    split; [by eexists|]. by rewrite Hrun2, Hve, Hid.
  - intros Hkk. destruct Hk0 as [->|Hk0];
      [|by rewrite (key_eqb_refl_r _ _ Hk0) in Hkk].
    pose proof (lookup_irreflexive s1 _ k (proj2 Hsh1) Hkk) as Hnone.
    split; [done|]. split; [done|]. by apply Get_absent.
Qed.

End LRU.

(** ** A concrete instance: string keys, integer values (as in [main]) *)

#[global] Instance ZeroValue_Z : ZeroValue Z := 0.

Lemma string_eqb_trans (a b c : string) :
  String.eqb a b = true → String.eqb b c = true → String.eqb a c = true.
Proof. rewrite !String.eqb_eq. congruence. Qed.

(** Go's [==] on strings. *)
#[global] Instance Comparable_string : Comparable string :=
  Build_Comparable string String.eqb String.eqb_sym string_eqb_trans.

Definition main_ops : list (op (K:=string) (V:=Z)) :=
  [OpPut "a" 1; OpPut "b" 2; OpPut "c" 3; OpGet "b"; OpPut "d" 4;
   OpGet "a"; OpGet "c"; OpPut "e" 5]%string.

(** The store after the calls [ops] on a fresh cache of capacity [cap]. *)
Definition store_after {K : Type} `{Comparable K} {V : Type} `{ZeroValue V}
    (cap : Z) (ops : list (op (K:=K) (V:=V))) : Store (K:=K) (V:=V) :=
  match NewLRUCache cap with
  | Ok s0 => match run ops s0 with Ok (_, s) => s | Panic _ => s0 end
  | Panic _ => MkStore ∅ (MkCache 0 0 ∅ None None)
  end.

(** Capacity 3 after [Put a; Put b; Put c; Get b]: the order is b, c, a
    and the cache is full. *)
Definition full3 : Store (K:=string) (V:=Z) := store_after 3 (take 4 main_ops).

(** Capacity 1 after [Put a]. *)
Definition full1 : Store (K:=string) (V:=Z) :=
  store_after 1 [OpPut "a"%string 1].

(** [full3] after [Get c]: the order is c, b, a. *)
Definition full3_c : Store (K:=string) (V:=Z) :=
  store_after 3 (take 4 main_ops ++ [OpGet "c"%string]).

(** [full3] in the middle of [Put d]: four entries, before the check. *)
Definition over3 : Store (K:=string) (V:=Z) :=
  match Put_insert "d"%string 4 full3 with
  | Ok (_, s) => s
  | Panic _ => full3
  end.

(** ** A key type whose [==] is not reflexive

    The keys that matter of Go's [float64]: the integers, the negative
    zero and NaN.  [==] compares numbers; the two zeros are [==], and
    NaN is [==] to nothing, itself included. *)
Inductive fkey : Type :=
  | Fnum (z : Z)
  | Fnegzero
  | Fnan.

Definition fkey_num (a : fkey) : option Z :=
  match a with
  | Fnum z => Some z
  | Fnegzero => Some 0
  | Fnan => None
  end.

Definition fkey_eqb (a b : fkey) : bool :=
  match fkey_num a, fkey_num b with
  | Some x, Some y => x =? y
  | _, _ => false
  end.

Lemma fkey_eqb_sym (a b : fkey) : fkey_eqb a b = fkey_eqb b a.
Proof.
  unfold fkey_eqb. destruct (fkey_num a), (fkey_num b); try done.
  apply Z.eqb_sym.
Qed.

Lemma fkey_eqb_trans (a b c : fkey) :
  fkey_eqb a b = true → fkey_eqb b c = true → fkey_eqb a c = true.
Proof.
  unfold fkey_eqb. destruct (fkey_num a), (fkey_num b), (fkey_num c); try done.
  rewrite !Z.eqb_eq. congruence.
Qed.

#[global] Instance Comparable_fkey : Comparable fkey :=
  Build_Comparable fkey fkey_eqb fkey_eqb_sym fkey_eqb_trans.

(** A fresh cache of capacity 1 with [float64] keys, and the same after
    [Put(NaN, 1)]. *)
Definition nan0 : Store (K:=fkey) (V:=Z) := store_after 1 [].
Definition nan1 : Store (K:=fkey) (V:=Z) := store_after 1 [OpPut Fnan 1].

(** [nan1] in the middle of [Put(7, 2)]: two entries, before the check. *)
Definition nan_over : Store (K:=fkey) (V:=Z) :=
  match Put_insert (Fnum 7) 2 nan1 with
  | Ok (_, s) => s
  | Panic _ => nan1
  end.

(** [nan1] after [Put(7, 2)]. *)
Definition nan_evicted : Store (K:=fkey) (V:=Z) :=
  store_after 1 [OpPut Fnan 1; OpPut (Fnum 7) 2].

Example full3_order : order full3 = [("b", 2); ("c", 3); ("a", 1)]%string.
Proof. vm_compute. reflexivity. Qed.

Example over3_order :
  order over3 = [("d", 4); ("b", 2); ("c", 3); ("a", 1)]%string ∧
  size (cache over3) = 4.
Proof. vm_compute. done. Qed.

(** The runs of section 8 of the specification, at capacity 3. *)
Example recency_order :
  order (store_after 3 (take 3 main_ops)) = [("c", 3); ("b", 2); ("a", 1)]%string.
Proof. vm_compute. reflexivity. Qed.

Example eviction_order :
  order (store_after 3 (take 3 main_ops ++ [OpPut "d" 4; OpGet "a"]))%string
  = [("d", 4); ("c", 3); ("b", 2)]%string.
Proof. vm_compute. reflexivity. Qed.

Example main_order :
  order (store_after 3 main_ops) = [("e", 5); ("c", 3); ("d", 4)]%string.
Proof. vm_compute. reflexivity. Qed.

(** The two zeros are one key: the second [Put] updates the entry of the
    first, which keeps the key it was made with. *)
Example zeros_order :
  order (store_after 2 [OpPut (Fnum 0) 1; OpPut Fnegzero 2]) = [(Fnum 0, 2)].
Proof. vm_compute. reflexivity. Qed.

(** Every [Put] of NaN makes a new entry and a new binding; with
    capacity 1 the list keeps one entry and the map both bindings. *)
Example nan_twice :
  let s := store_after 1 [OpPut Fnan 1; OpPut Fnan 2] in
  order s = [(Fnan, 2)] ∧ size (cache s) = 1 ∧
  (bindings (cacheMap (cache s))).*1 = [Fnan; Fnan] ∧
  Get Fnan s = Ok ((0, false), s).
Proof. vm_compute. done. Qed.

Lemma Ok_state_inj {A St : Type} (a a' : A) (s s' : St) :
  Ok (a, s) = Ok (a', s') → s = s'.
Proof. by intros [= _ ->]. Qed.

Lemma small_cap_fits : 3 ≤ max_int ∧ 1 ≤ max_int ∧ 3 < max_int ∧ 1 < max_int.
Proof. unfold max_int. lia. Defined.

Lemma full3_reachable : reachable 3 full3.
Proof.
  exists (MkStore ∅ (MkCache 3 0 ∅ None None)), (take 4 main_ops).
  split; [reflexivity|]. split; [apply small_cap_fits|].
  split; [left; apply small_cap_fits|]. vm_compute. reflexivity.
Defined.

Lemma full1_reachable : reachable 1 full1.
Proof.
  exists (MkStore ∅ (MkCache 1 0 ∅ None None)), [OpPut "a"%string 1].
  split; [reflexivity|]. split; [apply small_cap_fits|].
  split; [left; apply small_cap_fits|]. vm_compute. reflexivity.
Defined.

Lemma nan0_reachable : reachable 1 nan0.
Proof.
  exists (MkStore ∅ (MkCache 1 0 ∅ None None)), [].
  split; [reflexivity|]. split; [apply small_cap_fits|].
  split; [left; apply small_cap_fits|]. reflexivity.
Defined.

Lemma nan1_reachable : reachable 1 nan1.
Proof.
  exists (MkStore ∅ (MkCache 1 0 ∅ None None)), [OpPut Fnan 1].
  split; [reflexivity|]. split; [apply small_cap_fits|].
  split; [left; apply small_cap_fits|]. vm_compute. reflexivity.
Defined.

Lemma nan_evicted_reachable : reachable 1 nan_evicted.
Proof.
  exists (MkStore ∅ (MkCache 1 0 ∅ None None)), [OpPut Fnan 1; OpPut (Fnum 7) 2].
  split; [reflexivity|]. split; [apply small_cap_fits|].
  split; [left; apply small_cap_fits|]. vm_compute. reflexivity.
Defined.


(** C2 ([Put] of a new key over a tail whose key is NaN).  With capacity
    1 and the cache holding the one key NaN, [Put] of the new key 7
    allocates its entry, puts it in front, binds it in the map and, the
    size being 2, evicts the tail: the NaN entry leaves the list and
    [size] is 1 again.  The map is not brought back: [delete] at a key
    that is not [==] to itself removes nothing, so the binding of the
    evicted entry stays and the map has two bindings for one entry on
    the list. *)
Theorem Put_evicts_NaN_from_list_only :
  reachable 1 nan1 ∧
  order nan1 = [(Fnan, 1)] ∧ len (cacheMap (cache nan1)) = 1%nat ∧
  cacheMap (cache nan1) !! Fnum 7 = None ∧
  Put (Fnum 7) 2 nan1 = Ok (tt, nan_evicted) ∧
  order nan_evicted = [(Fnum 7, 2)] ∧
  size (cache nan_evicted) = 1 ∧
  (bindings (cacheMap (cache nan_evicted))).*1 = [Fnan; Fnum 7] ∧
  len (cacheMap (cache nan_evicted)) = 2%nat.
Proof.
  split; [apply nan1_reachable|]. vm_compute. by repeat split.
Qed.

(** C3 (a reachable store whose map and list differ).  After
    [Put(NaN, 1); Put(7, 2)] on a fresh cache of capacity 1 the list
    holds the one key 7 and [size] is 1, but the map has two bindings,
    with keys NaN and 7, the first one pointing to a cell that is no
    longer on the list. *)
Theorem index_keeps_evicted_NaN :
  reachable 1 nan_evicted ∧
  (order nan_evicted).*1 = [Fnum 7] ∧
  (bindings (cacheMap (cache nan_evicted))).*1 = [Fnan; Fnum 7] ∧
  size (cache nan_evicted) = 1 ∧
  len (cacheMap (cache nan_evicted)) = 2%nat ∧
  chain nan_evicted = [2%positive] ∧
  bindings (cacheMap (cache nan_evicted)) =
    [(Fnan, 1%positive); (Fnum 7, 2%positive)].
Proof.
  split; [apply nan_evicted_reachable|]. vm_compute. by repeat split.
Qed.

Lemma Get_contract_witness :
  Get "z"%string full3 = Ok ((0, false), full3) ∧
  ∃ e s', cells full3 !! 3%positive = Some e ∧
    Get "c"%string full3 = Ok ((value e, true), s') ∧
    order s' = ("c"%string, value e) ::
               filter (λ kv, kv.1 != "c"%string) (order full3) ∧
    size (cache s') = size (cache full3).
Proof.
  destruct (Get_contract 3 full3 "z"%string full3_reachable) as [Hmiss _].
  destruct (Get_contract 3 full3 "c"%string full3_reachable) as [_ Hhit].
  split.
  - apply Hmiss. vm_compute. reflexivity.
  - destruct (Hhit 3%positive)
      as (e & s' & He & Hke & Hrun & _ & _ & Hord & _ & _ & _ & _ & Hz & _).
    + vm_compute. reflexivity.
    + apply String.eqb_eq in Hke. rewrite Hke in Hord.
      exists e, s'. split; [exact He|]. split; [exact Hrun|].
      split; [exact Hord|exact Hz].
Defined.

Lemma Put_update_witness :
  ∃ s', Put "a"%string 10 full3 = Ok (tt, s') ∧
    order s' = ("a"%string, 10) ::
               filter (λ kv, kv.1 != "a"%string) (order full3) ∧
    size (cache s') = size (cache full3).
Proof.
  destruct (Put_update 3 full3 "a"%string 10 1%positive full3_reachable)
    as (e & s' & _ & Hke & Hrun & _ & _ & _ & Hord & _ & _ & Hz & _).
  - vm_compute. reflexivity.
  - apply String.eqb_eq in Hke. rewrite Hke in Hord.
    exists s'. split; [exact Hrun|]. split; [exact Hord|exact Hz].
Defined.

Lemma construction_witness :
  (∃ msg, NewLRUCache (K:=string) (V:=Z) (-1) = Panic msg) ∧
  (∃ msg, NewLRUCache (K:=string) (V:=Z) 0 = Panic msg) ∧
  ∃ s, NewLRUCache (K:=string) (V:=Z) 3 = Ok s ∧
       capacity (cache s) = 3 ∧ cacheMap (cache s) = ∅ ∧
       head (cache s) = None ∧ tail (cache s) = None ∧
       size (cache s) = 0 ∧ cells s = ∅ ∧ order s = [].
Proof.
  split; [|split].
  - apply (proj1 (construction (-1))). lia.
  - apply (proj1 (construction 0)). lia.
  - apply (proj2 (construction 3)). lia.
Defined.

Lemma Get_head_idempotent_witness :
  moveToFront 2%positive full3 = Ok (tt, full3) ∧
  Get "b"%string full3 = Ok ((2, true), full3) ∧
  Get "c"%string full3 = Ok ((3, true), full3_c) ∧
  Get "c"%string full3_c = Ok ((3, true), full3_c) ∧
  Get Fnan nan1 = Ok ((0, false), nan1).
Proof.
  destruct (Get_head_idempotent 3 full3 "b"%string full3_reachable)
    as (Hmove & Hget & _).
  destruct (Get_head_idempotent 3 full3 "c"%string full3_reachable)
    as (_ & _ & _ & Hagain).
  destruct (Get_head_idempotent 1 nan1 Fnan nan1_reachable)
    as (_ & _ & Hnan & _).
  assert (Get "c"%string full3 = Ok ((3, true), full3_c)) as Hfirst
    by (vm_compute; reflexivity).
  split; [|split; [|split; [|split]]].
  - apply Hmove. vm_compute. reflexivity.
  - apply (Hget "b"%string 2 [("c", 3); ("a", 1)]%string).
    + vm_compute. reflexivity.
    + reflexivity.
  - exact Hfirst.
  - apply Hagain. exact Hfirst.
  - apply (Hnan 1 []). vm_compute. reflexivity.
Defined.

(** C8 ([removeTail] on a tail whose key is NaN).  In the middle of
    [Put(7, 2)] on the cache of capacity 1 that holds NaN, the size is 2
    and [removeTail] is called with a list that is not empty: its tail
    is the NaN entry.  [removeTail] takes that entry off the list and
    one off [size], but the map it leaves is the map it found: the
    binding of the entry it took off the list is still there. *)
Theorem removeTail_keeps_NaN_binding :
  Put_insert (Fnum 7) 2 nan1 = Ok (tt, nan_over) ∧
  capacity (cache nan_over) < size (cache nan_over) ∧
  (order nan_over).*1 = [Fnum 7; Fnan] ∧
  removeTail nan_over = Ok (tt, nan_evicted) ∧
  (order nan_evicted).*1 = [Fnum 7] ∧
  size (cache nan_evicted) = size (cache nan_over) - 1 ∧
  cacheMap (cache nan_evicted) = cacheMap (cache nan_over) ∧
  (bindings (cacheMap (cache nan_evicted))).*1 = [Fnan; Fnum 7].
Proof. vm_compute. by repeat split. Qed.

(** C9 ([Get] straight after [Put] of NaN).  On a fresh cache of
    capacity 1, [Put(NaN, 5)] returns with the pair at the front of the
    recency order and [size] 1, and the [Get(NaN)] that follows finds
    nothing: it returns the zero value and [false]. *)
Theorem Get_misses_NaN_just_put :
  reachable 1 nan0 ∧
  ∃ s1, Put Fnan 5 nan0 = Ok (tt, s1) ∧
    order s1 = [(Fnan, 5)] ∧ size (cache s1) = 1 ∧
    cacheMap (cache s1) !! Fnan = None ∧
    Get Fnan s1 = Ok ((0, false), s1).
Proof.
  split; [apply nan0_reachable|]. eexists. split; [vm_compute; reflexivity|].
  vm_compute. by repeat split.
Qed.

(** ** Instances of the further properties *)

(** The store at the end of [main]: the order is e, c, d; the cells of
    a and b have been evicted. *)
Definition main_end : Store (K:=string) (V:=Z) := store_after 3 main_ops.

(** A fresh cache of capacity 3. *)
Definition empty3 : Store (K:=string) (V:=Z) := store_after 3 [].

Example full3_chain : chain full3 = [2; 3; 1]%positive.
Proof. vm_compute. reflexivity. Qed.

Example main_end_chain : chain main_end = [5; 3; 4]%positive.
Proof. vm_compute. reflexivity. Qed.

Example main_model :
  lru_run 3 main_ops [] = [("e", 5); ("c", 3); ("d", 4)]%string.
Proof. vm_compute. reflexivity. Qed.

Example main_put_keys : put_keys main_ops = ["e"; "d"; "c"; "b"; "a"]%string.
Proof. vm_compute. reflexivity. Qed.

Lemma main_end_reachable : reachable 3 main_end.
Proof.
  exists (MkStore ∅ (MkCache 3 0 ∅ None None)), main_ops.
  split; [reflexivity|]. split; [apply small_cap_fits|].
  split; [left; apply small_cap_fits|]. vm_compute. reflexivity.
Defined.

Lemma empty3_reachable : reachable 3 empty3.
Proof.
  exists (MkStore ∅ (MkCache 3 0 ∅ None None)), [].
  split; [reflexivity|]. split; [apply small_cap_fits|].
  split; [left; apply small_cap_fits|]. reflexivity.
Defined.

Lemma cap3_ok : 1 ≤ 3 ≤ max_int.
Proof. split; [lia|apply small_cap_fits]. Defined.

Lemma main_feasible : feasible 3 main_ops.
Proof. left. apply small_cap_fits. Defined.

Lemma run_as_list_witness :
  ∃ s0 s s', NewLRUCache 3 = Ok s0 ∧ run main_ops s0 = Ok (tt, s) ∧
    order s = lru_run 3 main_ops [] ∧
    Get "c"%string s = Ok (lru_answer "c"%string (lru_run 3 main_ops []), s').
Proof. apply (run_as_list 3 main_ops "c"%string cap3_ok main_feasible). Defined.

Lemma Get_returns_last_put_witness :
  ∃ s0 s, NewLRUCache 3 = Ok s0 ∧ run main_ops s0 = Ok (tt, s) ∧
    (∀ v s', Get "c"%string s = Ok ((v, true), s') →
             last_put "c"%string main_ops = Some v) ∧
    (last_put "c"%string main_ops = None →
     Get "c"%string s = Ok ((0, false), s)).
Proof.
  apply (Get_returns_last_put 3 main_ops "c"%string cap3_ok main_feasible).
Defined.

Lemma recently_used_survives_witness :
  ∃ v s1 s2 s3, Get "a"%string full3 = Ok ((v, true), s1) ∧
    Put "d"%string 4 s1 = Ok (tt, s2) ∧
    Get "a"%string s2 = Ok ((v, true), s3).
Proof.
  apply (recently_used_survives 3 full3 "a"%string "d"%string 4
           full3_reachable).
  - lia.
  - vm_compute. reflexivity.
  - exists 1%positive. vm_compute. reflexivity.
  - vm_compute. reflexivity.
Defined.

Lemma evicted_key_is_gone_witness :
  ∃ s1, Put "d"%string 4 full3 = Ok (tt, s1) ∧
    order s1 = [("d", 4); ("b", 2); ("c", 3)]%string ∧
    Get "a"%string s1 = Ok ((0, false), s1).
Proof.
  apply (evicted_key_is_gone 3 full3 "d"%string 4 "a"%string 1
           [("b", 2); ("c", 3)]%string full3_reachable).
  - vm_compute. reflexivity.
  - vm_compute. reflexivity.
  - vm_compute. reflexivity.
  - vm_compute. reflexivity.
Defined.

Lemma size_never_shrinks_witness :
  ∃ s', exec (OpPut "d"%string 4) full3 = Ok (tt, s') ∧
    size (cache full3) ≤ size (cache s') ≤ size (cache full3) + 1 ∧
    size (cache s') ≤ 3 ∧
    (size (cache full3) = 3 → size (cache s') = 3) ∧
    size (cache s') = Z.of_nat (length (order s')).
Proof.
  apply (size_never_shrinks 3 full3 (OpPut "d"%string 4) full3_reachable).
  vm_compute. reflexivity.
Defined.

Lemma size_is_min_capacity_distinct_keys_witness :
  ∃ s0 s, NewLRUCache 3 = Ok s0 ∧ run main_ops s0 = Ok (tt, s) ∧
    size (cache s) = 3 `min` Z.of_nat (length (put_keys main_ops)).
Proof.
  apply (size_is_min_capacity_distinct_keys 3 main_ops cap3_ok main_feasible).
Defined.

Lemma back_links_witness :
  chain_back full3 = reverse (chain full3) ∧
  (head (cache full3) = None ↔ tail (cache full3) = None) ∧
  (∀ p e, head (cache full3) = Some p → cells full3 !! p = Some e →
          prev e = None) ∧
  (∀ p e, tail (cache full3) = Some p → cells full3 !! p = Some e →
          next e = None).
Proof. apply (back_links 3 full3 full3_reachable). Defined.

Lemma remove_unlinks_witness :
  ∃ s', remove 3%positive full3 = Ok (tt, s') ∧
    chain s' = filter (λ q, q ≠ 3%positive) (chain full3) ∧
    chain_back s' = reverse (chain s') ∧
    (∃ e, cells s' !! 3%positive = Some e ∧ prev e = None ∧ next e = None) ∧
    payload <$> cells s' = payload <$> cells full3 ∧
    cacheMap (cache s') = cacheMap (cache full3) ∧
    size (cache s') = size (cache full3) ∧
    capacity (cache s') = capacity (cache full3).
Proof.
  apply (remove_unlinks 3 full3 3%positive full3_reachable).
  rewrite full3_chain. right. left.
Defined.

Lemma addFront_links_witness :
  ∃ s', addFront 1%positive main_end = Ok (tt, s') ∧
    chain s' = 1%positive :: chain main_end ∧
    chain_back s' = reverse (chain s') ∧
    head (cache s') = Some 1%positive ∧
    (chain main_end = [] → tail (cache s') = Some 1%positive) ∧
    (chain main_end ≠ [] → tail (cache s') = tail (cache main_end)) ∧
    payload <$> cells s' = payload <$> cells main_end ∧
    cacheMap (cache s') = cacheMap (cache main_end) ∧
    size (cache s') = size (cache main_end) ∧
    capacity (cache s') = capacity (cache main_end).
Proof.
  apply (addFront_links 3 main_end 1%positive main_end_reachable).
  - exists (CacheEntry "a"%string 1 None None). vm_compute. reflexivity.
  - rewrite main_end_chain. rewrite !not_elem_of_cons.
    repeat split; [done..|apply not_elem_of_nil].
Defined.

Lemma moveToFront_order_witness :
  ∃ s', moveToFront 1%positive full3 = Ok (tt, s') ∧
    chain s' = 1%positive :: filter (λ q, q ≠ 1%positive) (chain full3) ∧
    chain s' ≡ₚ chain full3 ∧
    chain_back s' = reverse (chain s') ∧
    payload <$> cells s' = payload <$> cells full3 ∧
    cacheMap (cache s') = cacheMap (cache full3) ∧
    size (cache s') = size (cache full3) ∧
    capacity (cache s') = capacity (cache full3).
Proof.
  apply (moveToFront_order 3 full3 1%positive full3_reachable).
  rewrite full3_chain. right. right. left.
Defined.

Lemma removeTail_evicts_witness :
  removeTail empty3 = Ok (tt, empty3) ∧
  ∃ et s', cells full3 !! 1%positive = Some et ∧
    removeTail full3 = Ok (tt, s') ∧
    chain s' = [2; 3]%positive ∧ order full3 = order s' ++ [payload et] ∧
    cacheMap (cache s') = delete (key et) (cacheMap (cache full3)) ∧
    (∀ k, cacheMap (cache s') !! k =
          if key_eqb (key et) k then None else cacheMap (cache full3) !! k) ∧
    (∀ k, is_Some (cacheMap (cache s') !! k) ↔
          ∃ kv, kv ∈ order s' ∧ kv.1 == k) ∧
    size (cache s') = size (cache full3) - 1 ∧
    capacity (cache s') = capacity (cache full3).
Proof.
  split.
  - apply (proj1 (removeTail_evicts 3 empty3 empty3_reachable)).
    vm_compute. reflexivity.
  - apply (proj2 (removeTail_evicts 3 full3 full3_reachable)
             [2; 3]%positive 1%positive).
    apply full3_chain.
Defined.

Lemma Put_twice_overwrites_witness :
  ∃ s1 s2 rest, Put "d"%string 4 full3 = Ok (tt, s1) ∧
    Put "d"%string 5 s1 = Ok (tt, s2) ∧
    order s1 = ("d"%string, 4) :: rest ∧ order s2 = ("d"%string, 5) :: rest ∧
    chain s2 = chain s1 ∧
    cacheMap (cache s2) = cacheMap (cache s1) ∧
    size (cache s2) = size (cache s1) ∧
    Get "d"%string s2 = Ok ((5, true), s2).
Proof.
  destruct (Put_twice_overwrites 3 full3 "d"%string 4 5 full3_reachable)
    as (s1 & s2 & k0 & rest & Hp1 & Hp2 & Hk0 & Ho1 & Ho2 & Hrest);
    [reflexivity|].
  apply String.eqb_eq in Hk0. rewrite Hk0 in Ho1, Ho2.
  exists s1, s2, rest. split; [exact Hp1|]. split; [exact Hp2|].
  split; [exact Ho1|]. split; [exact Ho2|exact Hrest].
Defined.

Lemma Put_idempotent_witness :
  ∃ s1, Put "d"%string 4 full3 = Ok (tt, s1) ∧
        Put "d"%string 4 s1 = Ok (tt, s1).
Proof.
  apply (Put_idempotent 3 full3 "d"%string 4 full3_reachable). reflexivity.
Defined.

Lemma Get_keeps_answers_witness :
  ∃ r s1 a s2 s2', Get "a"%string full3 = Ok (r, s1) ∧
    Get "b"%string full3 = Ok (a, s2) ∧ Get "b"%string s1 = Ok (a, s2').
Proof.
  apply (Get_keeps_answers 3 full3 "a"%string "b"%string full3_reachable).
Defined.

Lemma Put_keeps_other_answers_witness :
  ∃ s1 a s2 a1 s2', Put "d"%string 4 full3 = Ok (tt, s1) ∧
    Get "a"%string full3 = Ok (a, s2) ∧ Get "a"%string s1 = Ok (a1, s2') ∧
    (a1 = a ∨
     (a1 = (0, false) ∧ cacheMap (cache full3) !! "d"%string = None ∧
      size (cache full3) = 3 ∧
      ∃ rest vt, order full3 = rest ++ [("a"%string, vt)])).
Proof.
  destruct (Put_keeps_other_answers 3 full3 "d"%string 4 "a"%string
              full3_reachable)
    as (s1 & a & s2 & a1 & s2' & Hput & Hget & Hget1 & Hcase).
  - vm_compute. reflexivity.
  - reflexivity.
  - exists s1, a, s2, a1, s2'.
    split; [exact Hput|]. split; [exact Hget|]. split; [exact Hget1|].
    destruct Hcase as [Ha|(Ha & Hk & Hz & rest & kt & vt & Ho & Hkt)];
      [left; exact Ha|right].
    apply String.eqb_eq in Hkt. rewrite Hkt in Ho.
    split; [exact Ha|]. split; [exact Hk|]. split; [exact Hz|].
    exists rest, vt. exact Ho.
Defined.

Lemma Put_new_witness :
  ∃ s', Put "d"%string 4 full3 = Ok (tt, s') ∧
        removeTail over3 = Ok (tt, s') ∧
        order s' = [("d", 4); ("b", 2); ("c", 3)]%string ∧
        size (cache s') = 3.
Proof.
  destruct (Put_new 3 full3 "d"%string 4 full3_reachable)
    as (s1 & s' & Hins & _ & _ & _ & _ & _ & _ & Hrun & _ & _ & _ &
        [(Hlt & _)|(_ & ch & rest & t & et & _ & Hord & _ & _ & Hrt & _ &
                    Hord' & _ & Hz)]).
  - vm_compute. reflexivity.
  - vm_compute. reflexivity.
  - vm_compute in Hlt. discriminate.
  - assert (Put_insert "d"%string 4 full3 = Ok (tt, over3)) as Hover
      by (vm_compute; reflexivity).
    rewrite Hover in Hins. apply Ok_state_inj in Hins. subst s1.
    exists s'. split; [exact Hrun|]. split; [exact Hrt|]. split; [|exact Hz].
    rewrite full3_order in Hord.
    apply (app_inj_tail [("b", 2); ("c", 3)]%string) in Hord as [<- _].
    exact Hord'.
Defined.

Lemma index_lookup_consistency_witness :
  (∀ k, is_Some (cacheMap (cache full3) !! k) ↔
        ∃ kv, kv ∈ order full3 ∧ kv.1 == k) ∧
  (∀ k p, cacheMap (cache full3) !! k = Some p ↔
          p ∈ chain full3 ∧ ∃ e, cells full3 !! p = Some e ∧ key e == k) ∧
  (∀ i j kv kv', order full3 !! i = Some kv → order full3 !! j = Some kv' →
                 kv.1 == kv'.1 → i = j) ∧
  size (cache full3) = Z.of_nat (length (order full3)) ∧
  size (cache full3) = Z.of_nat (length (chain full3)) ∧
  ∀ n, (base.size (cells full3) ≤ n)%nat →
       follow (cells full3) n (head (cache full3)) = chain full3.
Proof. apply (index_lookup_consistency 3 full3 full3_reachable). Defined.

Lemma removeTail_called_nonempty_witness :
  Put_insert "d"%string 4 full3 = Ok (tt, over3) ∧
  Put "d"%string 4 full3 = removeTail over3 ∧
  1 ≤ capacity (cache over3) ∧
  ∃ ch t et s2,
    chain over3 = ch ++ [t] ∧ tail (cache over3) = Some t ∧
    cells over3 !! t = Some et ∧
    removeTail over3 = Ok (tt, s2) ∧
    chain s2 = ch ∧ order over3 = order s2 ++ [payload et] ∧
    cacheMap (cache s2) = delete (key et) (cacheMap (cache over3)) ∧
    size (cache s2) = size (cache over3) - 1.
Proof.
  destruct (removeTail_called_nonempty 3 full3 "d"%string 4 full3_reachable)
    as (s1 & Hins & Hput & Hev).
  { vm_compute. reflexivity. }
  assert (Put_insert "d"%string 4 full3 = Ok (tt, over3)) as Hover
    by (vm_compute; reflexivity).
  rewrite Hover in Hins. apply Ok_state_inj in Hins. subst s1.
  assert (capacity (cache over3) < size (cache over3)) as Hlt
    by (vm_compute; reflexivity).
  split; [exact Hover|]. split.
  - rewrite Hput. by apply Z.ltb_lt in Hlt as ->.
  - exact (Hev Hlt).
Defined.

Lemma Put_then_Get_witness :
  (∃ s1, Put "b"%string 2 full1 = Ok (tt, s1) ∧
         Get "b"%string s1 = Ok ((2, true), s1)) ∧
  (∃ s1, Put Fnan 2 nan1 = Ok (tt, s1) ∧
         Get Fnan s1 = Ok ((0, false), s1)).
Proof.
  split.
  - destruct (Put_then_Get 1 full1 "b"%string 2 full1_reachable)
      as (s1 & k0 & rest & Hput & _ & _ & Hyes & _).
    exists s1. split; [exact Hput|]. apply Hyes. reflexivity.
  - destruct (Put_then_Get 1 nan1 Fnan 2 nan1_reachable)
      as (s1 & k0 & rest & Hput & _ & _ & _ & Hno).
    exists s1. split; [exact Hput|]. apply Hno. reflexivity.
Defined.
